(** * CuraScan: report-value extraction and the hemoglobin override

    A shallow embedding of the two routines of the repository that carry
    domain logic:

    - [parseExtractedValues] (the text-to-values parser), and
    - [applyHemoglobinRule] (backend/routes/process.js), the override step
      that annotates prediction records.

    JavaScript strings are sequences of UTF-16 code units, numbers are IEEE
    binary64 values, regular expressions are run by a backtracking matcher
    with the priorities of the ECMAScript semantics, and the records the
    override step edits live in a store, because the step edits them in
    place. *)

From Stdlib Require Import ZArith NArith Floats.SpecFloat.
From stdpp Require Import base option list gmap strings.

(** ** Strings *)

(** A string is the list of its UTF-16 code units. *)
Abbreviation jsstring := (list N).

Module JsString.

(** An ASCII literal of the source, as code units. *)
Definition lit (s : string) : jsstring :=
  (fun a => Ascii.N_of_ascii a) <$> String.list_ascii_of_string s.

Definition is_digit (c : N) : bool := (48 <=? c)%N && (c <=? 57)%N.

(** WhiteSpace and LineTerminator code points: what [\s] matches and what
    [String.prototype.trim] strips. *)
Definition is_ws (c : N) : bool :=
  bool_decide (c ∈ [9; 10; 11; 12; 13; 32; 160; 5760; 8232; 8233; 8239;
                    8287; 12288; 65279]%N)
  || ((8192 <=? c)%N && (c <=? 8202)%N).

Fixpoint drop_while (p : N -> bool) (s : jsstring) : jsstring :=
  match s with
  | c :: s' => if p c then drop_while p s' else s
  | [] => []
  end.

Fixpoint take_while (p : N -> bool) (s : jsstring) : jsstring :=
  match s with
  | c :: s' => if p c then c :: take_while p s' else []
  | [] => []
  end.

(** [l.trim()] *)
Definition trim (s : jsstring) : jsstring :=
  reverse (drop_while is_ws (reverse (drop_while is_ws s))).

(** [text.replace(/\r\n/g, "\n")] *)
Fixpoint replace_crlf (s : jsstring) : jsstring :=
  match s with
  | [] => []
  | a :: t =>
      match t with
      | b :: t' =>
          if (a =? 13)%N && (b =? 10)%N then 10%N :: replace_crlf t'
          else a :: replace_crlf t
      | [] => [a]
      end
  end.

(** [.replace(/\u00A0/g, " ")] *)
Definition replace_nbsp (s : jsstring) : jsstring :=
  (fun c => if (c =? 160)%N then 32%N else c) <$> s.

(** [s.split(/\n+/)]: a run of line feeds is one separator; a separator at
    either end of the text leaves an empty piece there. [acc] is the
    current piece, reversed; [insep] tells that the scan is inside a run
    of line feeds. *)
Fixpoint split_go (acc : jsstring) (insep : bool) (s : jsstring)
  : list jsstring :=
  match s with
  | [] => [reverse acc]
  | c :: s' =>
      if (c =? 10)%N then
        if insep then split_go [] true s'
        else reverse acc :: split_go [] true s'
      else split_go (c :: acc) false s'
  end.

Definition split_nl (s : jsstring) : list jsstring := split_go [] false s.

(** Canonicalize of a case-insensitive, non-unicode RegExp: the code unit
    of the upper-cased character, except that no character outside ASCII
    is mapped into ASCII.  The table is restricted to the code units whose
    image can meet a character of a pattern of this program: the ASCII
    letters, and the three code units that share the image U+039C with the
    micro sign of the second RBC pattern. *)
Definition canonicalize (c : N) : N :=
  if (97 <=? c)%N && (c <=? 122)%N then (c - 32)%N
  else if (c =? 181)%N || (c =? 956)%N then 924%N
  else c.

End JsString.
Export JsString.

(** ** Numbers *)

Module JsNumber.

(** A Number is a binary64 value: [prec = 53], [emax = 1024]. *)
Definition number := spec_float.
Definition prec : Z := 53.
Definition emax : Z := 1024.

Definition NaN : number := S754_nan.
Definition pos_zero : number := S754_zero false.

Definition digit_val (c : N) : Z := Z.of_N c - 48.

Definition digits_val (ds : jsstring) : Z :=
  foldl (fun acc c => 10 * acc + digit_val c)%Z 0%Z ds.

(** The Number value of the decimal [n / 10^k]: the quotient rounded to
    nearest, ties to even. *)
Definition of_decimal (n : Z) (k : nat) : number :=
  match n with
  | Zpos p =>
      SFdiv prec emax (S754_finite false p 0)
                      (S754_finite false (Z.to_pos (10 ^ Z.of_nat k)) 0)
  | _ => pos_zero
  end.

(** [parseFloat] on its domain in this program, the unsigned decimal
    literals without exponent that the two numeric captures yield: digits,
    optionally followed by a point and digits.  Other arguments do not
    reach it (see [captures_are_decimal_literals]); on them this model
    answers NaN, which is not claimed of JavaScript. *)
Definition parseFloat (s : jsstring) : number :=
  let ip := take_while is_digit s in
  match ip, drop_while is_digit s with
  | _ :: _, [] => of_decimal (digits_val ip) 0
  | _ :: _, dot :: fp =>
      if (dot =? 46)%N && forallb is_digit fp && negb (bool_decide (fp = []))
      then of_decimal (digits_val (ip ++ fp)) (length fp)
      else NaN
  | _, _ => NaN
  end.

(** ToNumber of a value that is a Number or null: null is +0. *)
Definition toNumber (v : option number) : number := default pos_zero v.

(** [x < y] and [x > y] with a Number on the right; a NaN operand makes
    both false. *)
Definition js_lt (v : option number) (y : number) : bool :=
  SFltb (toNumber v) y.
Definition js_gt (v : option number) (y : number) : bool :=
  SFltb y (toNumber v).

End JsNumber.
Export JsNumber.

(** ** Regular expressions *)

Module RegExp.

(** The fragment of the pattern language the program uses.  A quantifier
    is only ever applied to a character class ([RStar]) or, as [?], to a
    group without captures ([ROpt]). *)
Inductive regex :=
| REps
| RClass (p : N -> bool)
| RSeq (r1 r2 : regex)
| ROpt (r : regex)
| RStar (p : N -> bool)
| RGroup (r : regex).

Definition RPlus (p : N -> bool) : regex := RSeq (RClass p) (RStar p).

(** What is left of the input after [p*], longest iteration first. *)
Fixpoint star_run (p : N -> bool) (s : jsstring) : list jsstring :=
  match s with
  | c :: s' => if p c then star_run p s' ++ [s] else [s]
  | [] => [[]]
  end.

(** All the ways [r] matches a prefix of [s], in the order in which the
    backtracking matcher tries them: each is the list of captures, in
    the order of the groups, and the rest of the input. *)
Fixpoint run (r : regex) (s : jsstring) : list (list jsstring * jsstring) :=
  match r with
  | REps => [([], s)]
  | RClass p =>
      match s with
      | c :: s' => if p c then [([], s')] else []
      | [] => []
      end
  | RSeq r1 r2 =>
      '(c1, s1) ← run r1 s;
      '(c2, s2) ← run r2 s1;
      [(c1 ++ c2, s2)]
  | ROpt r => run r s ++ [([], s)]
  | RStar p => (fun s' => ([], s')) <$> star_run p s
  | RGroup r =>
      (fun '(c, s') => (c ++ [take (length s - length s') s], s')) <$> run r s
  end.

(** A match: the index where it starts, counted from where the search
    began, the matched text, the captures, and the input after it. *)
Record rmatch := RMatch {
  m_index : nat;
  m_text : jsstring;
  m_caps : list jsstring;
  m_rest : jsstring
}.

(** The first alternative at this position, if any. *)
Definition exec_here (r : regex) (s : jsstring) : option rmatch :=
  '(caps, rest) ← head (run r s);
  Some (RMatch 0 (take (length s - length rest) s) caps rest).

Definition shift (m : rmatch) : rmatch :=
  RMatch (S (m_index m)) (m_text m) (m_caps m) (m_rest m).

(** [re.exec(s)] from the start of [s]: positions are tried from left to
    right, the end of the input included. *)
Fixpoint exec (r : regex) (s : jsstring) : option rmatch :=
  match exec_here r s with
  | Some m => Some m
  | None =>
      match s with
      | [] => None
      | _ :: s' => shift <$> exec r s'
      end
  end.

(** [re.test(s)] *)
Definition re_test (r : regex) (s : jsstring) : bool :=
  bool_decide (is_Some (exec r s)).

(** [m[i]] for [i >= 1]; an absent capture reads as the empty string. *)
Definition group (m : rmatch) (i : nat) : jsstring :=
  default [] (m_caps m !! pred i).

(** [s.matchAll(re)] for a global [re]: the next search starts where the
    last match ended, one code unit further after an empty match.  Every
    round consumes input, so [S (length s)] rounds are enough (see
    [matchAll_go_fuel]). *)
Fixpoint matchAll_go (fuel : nat) (r : regex) (s : jsstring) : list rmatch :=
  match fuel with
  | O => []
  | S fuel' =>
      match exec r s with
      | None => []
      | Some m =>
          m :: match m_text m, m_rest m with
               | [], [] => []
               | [], _ :: rest' => matchAll_go fuel' r rest'
               | _ :: _, rest => matchAll_go fuel' r rest
               end
      end
  end.

Definition matchAll (r : regex) (s : jsstring) : list rmatch :=
  matchAll_go (S (length s)) r s.

(** Pattern sources.  [new RegExp(src, "i")] for a source made of literal
    characters and of identity escapes of syntax characters, which is all
    the registry below uses; any other source is outside the fragment and
    is refused. *)
Definition is_syntax_char (c : N) : bool :=
  bool_decide (c ∈ [94; 36; 92; 46; 42; 43; 63; 40; 41; 91; 93; 123; 125;
                    124]%N).

Definition char_i (c : N) : N -> bool :=
  fun x => (canonicalize x =? canonicalize c)%N.

(** A pattern of literal characters under the [i] flag. *)
Definition literal_i (cs : jsstring) : regex :=
  foldr (fun c r => RSeq (RClass (char_i c)) r) REps cs.

Fixpoint compile_i (src : jsstring) : option regex :=
  match src with
  | [] => Some REps
  | a :: t =>
      if (a =? 92)%N then
        match t with
        | b :: t' =>
            if is_syntax_char b || (b =? 47)%N
            then RSeq (RClass (char_i b)) <$> compile_i t'
            else None
        | [] => None
        end
      else if is_syntax_char a then None
      else RSeq (RClass (char_i a)) <$> compile_i t
  end.

(** [new RegExp(src, "i").test(s)] *)
Definition test_i (src s : jsstring) : bool :=
  match compile_i src with
  | Some r => re_test r s
  | None => false
  end.

End RegExp.
Export RegExp.

(** ** Records *)

(** The objects that flow through the pipeline, with the fields this code
    reads or writes.  The parser creates them with [test], [line], [value],
    [ref_lower] and [ref_upper]; [sex] is read on the items, [prediction]
    and [rule_overridden] are written on the predictions.  The three numeric
    fields are always present and hold a Number or [null], which is [None];
    for the last three fields [None] is an absent property. *)
Record LabRecord := mkLabRecord {
  test : jsstring;
  line : jsstring;
  value : option number;
  ref_lower : option number;
  ref_upper : option number;
  sex : option jsstring;
  prediction : option jsstring;
  rule_overridden : option bool
}.

Definition set_prediction (v : jsstring) (p : LabRecord) : LabRecord :=
  mkLabRecord (test p) (line p) (value p) (ref_lower p) (ref_upper p) (sex p)
              (Some v) (rule_overridden p).

Definition set_rule_overridden (b : bool) (p : LabRecord) : LabRecord :=
  mkLabRecord (test p) (line p) (value p) (ref_lower p) (ref_upper p) (sex p)
              (prediction p) (Some b).

(** ** The parser *)

Module Parser.

Record TestEntry := mkTest { key : jsstring; names : list jsstring }.

Definition micro : N := 181.

(** The registry, with the pattern sources as the RegExp constructor
    receives them. *)
Definition tests : list TestEntry := [
  mkTest (lit "Hemoglobin") [lit "Hemoglobin"; lit "Hemoglobin \(g/dL\)"];
  mkTest (lit "RBC")
         [lit "RBC"; lit "RBC \(10\^6/" ++ [micro] ++ lit "L\)"];
  mkTest (lit "WBC") [lit "WBC"];
  mkTest (lit "Platelets") [lit "Platelets"];
  mkTest (lit "Hematocrit") [lit "Hematocrit"];
  mkTest (lit "MCV") [lit "MCV"];
  mkTest (lit "MCH") [lit "MCH"];
  mkTest (lit "MCHC") [lit "MCHC"];
  mkTest (lit "Neutrophils") [lit "Neutrophils"];
  mkTest (lit "Lymphocytes") [lit "Lymphocytes"];
  mkTest (lit "Fasting Glucose") [lit "Fasting Glucose"];
  mkTest (lit "Urea") [lit "Urea"];
  mkTest (lit "Creatinine") [lit "Creatinine"];
  mkTest (lit "Sodium") [lit "Sodium"];
  mkTest (lit "Potassium") [lit "Potassium"];
  mkTest (lit "ALT") [lit "ALT"];
  mkTest (lit "AST") [lit "AST"]
].

Definition is_dot (c : N) : bool := (c =? 46)%N.
Definition is_dash (c : N) : bool := (c =? 45)%N || (c =? 8211)%N.

(** [[0-9]+(?:\.[0-9]+)?] *)
Definition decimalRe : regex :=
  RSeq (RPlus is_digit) (ROpt (RSeq (RClass is_dot) (RPlus is_digit))).

(** [/([0-9]+(?:\.[0-9]+)?)/g] *)
Definition numRe : regex := RGroup decimalRe.

(** [/([0-9]+(?:\.[0-9]+)?)\s*[-\u2013]\s*([0-9]+(?:\.[0-9]+)?)/] *)
Definition rangeRe : regex :=
  RSeq (RGroup decimalRe)
    (RSeq (RStar is_ws)
      (RSeq (RClass is_dash)
        (RSeq (RStar is_ws) (RGroup decimalRe)))).

(** The object pushed for a line [l] that matched a pattern of [t]. *)
Definition extract (t : TestEntry) (l : jsstring) : LabRecord :=
  let nums := (fun m => parseFloat (group m 1)) <$> matchAll numRe l in
  let rangeMatch := exec rangeRe l in
  let refLower := (fun m => parseFloat (group m 1)) <$> rangeMatch in
  let refUpper := (fun m => parseFloat (group m 2)) <$> rangeMatch in
  let value := head nums in
  mkLabRecord (key t) l value refLower refUpper None None None.

(** [for (const nm of t.names)], with its [break]. *)
Fixpoint loop_names (found : list LabRecord) (t : TestEntry) (l : jsstring)
    (nms : list jsstring) : list LabRecord :=
  match nms with
  | [] => found
  | nm :: nms' =>
      if test_i nm l then found ++ [extract t l]
      else loop_names found t l nms'
  end.

(** [for (const t of tests)] *)
Definition loop_tests (found : list LabRecord) (ts : list TestEntry)
    (l : jsstring) : list LabRecord :=
  foldl (fun found t => loop_names found t l (names t)) found ts.

(** [for (const l of lines)] *)
Definition loop_lines (found : list LabRecord) (lines : list jsstring)
    : list LabRecord :=
  foldl (fun found l => loop_tests found tests l) found lines.

(** The deduplication loop. *)
Fixpoint dedup_loop (dedup : list LabRecord) (seen : gset jsstring)
    (found : list LabRecord) : list LabRecord :=
  match found with
  | [] => dedup
  | f :: found' =>
      if decide (test f ∈ seen) then dedup_loop dedup seen found'
      else dedup_loop (dedup ++ [f]) (seen ∪ {[test f]}) found'
  end.

(** [s.split(/\n+/).map(l => l.trim()).filter(Boolean)] *)
Definition lines_of (s : jsstring) : list jsstring :=
  filter (fun l => l <> []) (trim <$> split_nl s).

(** [parseExtractedValues(text)]; [None] is a null or absent text. *)
Definition parseExtractedValues (text : option jsstring) : list LabRecord :=
  match text with
  | None | Some [] => []
  | Some text =>
      let s := replace_nbsp (replace_crlf text) in
      let lines := lines_of s in
      let found := loop_lines [] lines in
      dedup_loop [] ∅ found
  end.

End Parser.
Export Parser.

(** ** The override step *)

Module Classifier.

(** [/hemoglobin/i] *)
Definition hemoglobinRe : regex := literal_i (lit "hemoglobin").

Definition is_hemoglobin (name : jsstring) : bool :=
  re_test hemoglobinRe name.

(** [items.find((x) => /hemoglobin/i.test(x.test))?.sex]: the [sex] of the
    first item whose name matches, absent when there is no such item or the
    item has no such property. *)
Definition found_sex (items : list LabRecord) : option jsstring :=
  List.find (fun x => is_hemoglobin (test x)) items ≫= sex.

(** [testItem?.sex || "M"]: absent and the empty string both give "M". *)
Definition item_sex (items : list LabRecord) : jsstring :=
  match found_sex items with
  | Some (c :: s) => c :: s
  | _ => lit "M"
  end.

(** A numeric literal of the source. *)
Definition js_number (s : string) : number := parseFloat (lit s).

Definition lower_bound (sx : jsstring) : number :=
  if decide (sx = lit "F") then js_number "12.0" else js_number "13.0".

Definition upper_bound (sx : jsstring) : number :=
  if decide (sx = lit "F") then js_number "16.0" else js_number "17.5".

(** The body of the [if] of the callback: what it writes on [p]. *)
Definition override (items : list LabRecord) (p : LabRecord) : LabRecord :=
  let sx := item_sex items in
  let lower := lower_bound sx in
  let upper := upper_bound sx in
  let p1 :=
    if js_lt (value p) lower then set_prediction (lit "low") p
    else if js_gt (value p) upper then set_prediction (lit "high") p
    else set_prediction (lit "normal") p in
  set_rule_overridden true p1.

(** References to record objects, and the store that holds the objects. *)
Definition loc := nat.
Abbreviation store := (gmap loc LabRecord).

(** The callback of [preds.map]: it edits the object [p] refers to and
    returns [p] itself.  A reference always has its object; on a dangling
    one the model does nothing. *)
Definition callback (items : list LabRecord) (h : store) (p : loc)
    : store * loc :=
  match h !! p with
  | Some o =>
      if is_hemoglobin (test o) then (<[p := override items o]> h, p)
      else (h, p)
  | None => (h, p)
  end.

(** [preds.map(callback)]: the callback runs on the elements in order, and
    its results make up the new array. *)
Fixpoint array_map (items : list LabRecord) (h : store) (preds : list loc)
    : store * list loc :=
  match preds with
  | [] => (h, [])
  | p :: preds' =>
      let '(h1, q) := callback items h p in
      let '(h2, out) := array_map items h1 preds' in
      (h2, q :: out)
  end.

(** [applyHemoglobinRule(preds, items)].  The items are only read, and
    only through [test] and [sex], which the step never writes: they are
    passed by value. *)
Definition applyHemoglobinRule (h : store) (preds : list loc)
    (items : list LabRecord) : store * list loc :=
  array_map items h preds.

End Classifier.
Export Classifier.


(** ** Notions the statements use *)

Module Notions.

(** What a pattern matches, priorities aside: [sem r u caps] says that [r]
    matches exactly the text [u], capturing [caps]. *)
Inductive sem : regex -> jsstring -> list jsstring -> Prop :=
| sem_eps : sem REps [] []
| sem_class p c : p c = true -> sem (RClass p) [c] []
| sem_seq r1 r2 u1 u2 c1 c2 :
    sem r1 u1 c1 -> sem r2 u2 c2 -> sem (RSeq r1 r2) (u1 ++ u2) (c1 ++ c2)
| sem_opt_some r u c : sem r u c -> sem (ROpt r) u c
| sem_opt_none r : sem (ROpt r) [] []
| sem_star p u : Forall (fun c => p c = true) u -> sem (RStar p) u []
| sem_group r u c : sem r u c -> sem (RGroup r) u (c ++ [u]).

(** Every code unit of [u] is in the class [p]. *)
Definition all (p : N -> bool) (u : jsstring) : Prop :=
  Forall (fun c => p c = true) u.

Definition digits (u : jsstring) : Prop := u <> [] /\ all is_digit u.

(** A numeric substring, integer or decimal. *)
Definition decimal_literal (tok : jsstring) : Prop :=
  exists ip, digits ip /\
    (tok = ip \/ exists fp, digits fp /\ tok = ip ++ 46%N :: fp).

(** [tok], followed by [post], is a number in full: no longer numeric
    substring starts where it starts. *)
Definition whole_number (tok post : jsstring) : Prop :=
  forall e post', post = e ++ post' -> decimal_literal (tok ++ e) -> e = [].

(** [tok] is the first numeric substring of [l], by position. *)
Definition first_numeric (l tok : jsstring) : Prop :=
  exists pre post,
    l = pre ++ tok ++ post /\ decimal_literal tok /\ whole_number tok post /\
    forall pre' tok' post',
      l = pre' ++ tok' ++ post' -> decimal_literal tok' ->
      length pre <= length pre'.

Definition no_numeric (l : jsstring) : Prop :=
  forall pre tok post, l = pre ++ tok ++ post -> ~ decimal_literal tok.

(** An occurrence of [<number> [-|en dash] <number>] in [l], after [pre]. *)
Definition range_at (l pre a b post : jsstring) : Prop :=
  exists w1 d w2,
    l = pre ++ a ++ w1 ++ d :: w2 ++ b ++ post /\
    decimal_literal a /\ all is_ws w1 /\ is_dash d = true /\ all is_ws w2 /\
    decimal_literal b.

(** [a] and [b] are the numbers of the first occurrence of a range in [l]. *)
Definition first_range (l a b : jsstring) : Prop :=
  exists pre post,
    range_at l pre a b post /\ whole_number b post /\
    forall pre' a' b' post',
      range_at l pre' a' b' post' -> length pre <= length pre'.

Definition no_range (l : jsstring) : Prop :=
  forall pre a b post, ~ range_at l pre a b post.

(** The rest of [s] after the longest decimal literal that starts it. *)
Definition scan_decimal (s : jsstring) : option jsstring :=
  match s with
  | c :: s' =>
      if is_digit c then
        let s1 := drop_while is_digit s' in
        Some match s1 with
             | dot :: d :: s3 =>
                 if is_dot dot && is_digit d then drop_while is_digit s3
                 else s1
             | _ => s1
             end
      else None
  | [] => None
  end.

(** What can follow the first number of a range: white space or the dash. *)
Definition is_sep (c : N) : bool := is_ws c || is_dash c.

(** [s] contains [needle], letter case aside. *)
Definition contains_ci (needle s : jsstring) : Prop :=
  exists pre w post,
    s = pre ++ w ++ post /\
    Forall2 (fun x c => canonicalize x = canonicalize c) w needle.

(** Some pattern of the entry matches the line. *)
Definition entry_matches (t : TestEntry) (l : jsstring) : bool :=
  existsb (fun nm => test_i nm l) (names t).

(** The lines of a text, as the parser scans them. *)
Definition scanned_lines (text : option jsstring) : list jsstring :=
  match text with
  | None | Some [] => []
  | Some text => lines_of (replace_nbsp (replace_crlf text))
  end.

(** The records found before deduplication, in scan order. *)
Definition found_of (text : option jsstring) : list LabRecord :=
  loop_lines [] (scanned_lines text).

(** [r] is at index [i] of [found] and no earlier record has its key. *)
Definition first_with_key (found : list LabRecord) (i : nat) (r : LabRecord)
    : Prop :=
  found !! i = Some r /\
  forall j r', j < i -> found !! j = Some r' -> test r' <> test r.

(** The fields the override step reads are the fields it leaves alone. *)
Definition same_inputs (o o' : LabRecord) : Prop :=
  test o' = test o /\ line o' = line o /\ value o' = value o /\
  ref_lower o' = ref_lower o /\ ref_upper o' = ref_upper o /\ sex o' = sex o.

(** The Number [m * 2^e], when it is one. *)
Definition dyadic (m e : Z) : number := binary_normalize prec emax m e false.

End Notions.
Export Notions.

(** ** Sample inputs *)

Module Samples.

Definition hb_line : jsstring := lit "Hemoglobin (g/dL): 11.2  (13.0-17.0)".

(** The first entry of the registry. *)
Definition hb_entry : TestEntry :=
  mkTest (lit "Hemoglobin") [lit "Hemoglobin"; lit "Hemoglobin \(g/dL\)"].

(** The record the spec expects for [hb_line]. *)
Definition hb_record : LabRecord :=
  mkLabRecord (lit "Hemoglobin") hb_line (Some (js_number "11.2"))
              (Some (js_number "13.0")) (Some (js_number "17.0"))
              None None None.

Definition with_sex (sx : string) (o : LabRecord) : LabRecord :=
  mkLabRecord (test o) (line o) (value o) (ref_lower o) (ref_upper o)
              (Some (lit sx)) (prediction o) (rule_overridden o).

Definition two_hb_lines : jsstring :=
  lit "Hemoglobin 11.2" ++ [10%N] ++ lit "Hemoglobin 14.0".

Definition en_dash_line : jsstring :=
  lit "Hemoglobin 11.2 g/dL 13 " ++ [8211%N] ++ lit " 17.5".

Definition hbF : LabRecord := with_sex "F" hb_record.
Definition hbM : LabRecord := with_sex "M" hb_record.

(** A hemoglobin line without a number, as the parser records it. *)
Definition hb_null : LabRecord :=
  mkLabRecord (lit "Hemoglobin") (lit "Hemoglobin: pending") None None None
              None None None.

(** A prediction for another test, already classified upstream. *)
Definition wbc_pred : LabRecord :=
  mkLabRecord (lit "WBC") (lit "WBC 7.1") (Some (js_number "7.1")) None None
              None (Some (lit "normal")) None.

Definition store_of (os : list LabRecord) : store :=
  list_to_map (zip (seq 0 (length os)) os).

End Samples.
Export Samples.

(** ** The rest of the code: helpers of the other routes and of the client *)

Module MoreStrings.

(** [s.startsWith(needle)] *)
Fixpoint starts_with (needle s : jsstring) : bool :=
  match needle, s with
  | [], _ => true
  | n :: needle', c :: s' => (c =? n)%N && starts_with needle' s'
  | _ :: _, [] => false
  end.

(** [s.includes(needle)] *)
Fixpoint includes (s needle : jsstring) : bool :=
  starts_with needle s
  || match s with
     | [] => false
     | _ :: s' => includes s' needle
     end.

(** [s.toLowerCase()], with the table restricted as for [canonicalize]: it
    is exact on ASCII and on U+0130 and U+212A, the only code points outside
    ASCII whose lower case holds an ASCII letter, and leaves every other
    code unit alone, which does not change whether the result includes an
    ASCII needle. *)
Definition toLowerCase (s : jsstring) : jsstring :=
  c ← s;
  if (65 <=? c)%N && (c <=? 90)%N then [(c + 32)%N]
  else if (c =? 304)%N then [105; 775]%N
  else if (c =? 8490)%N then [107%N]
  else [c].

(** [s.split(sep)] for a separator of one code unit; [acc] is the current
    piece, reversed. *)
Fixpoint split_on (sep : N) (acc : jsstring) (s : jsstring) : list jsstring :=
  match s with
  | [] => [reverse acc]
  | c :: s' =>
      if (c =? sep)%N then reverse acc :: split_on sep [] s'
      else split_on sep (c :: acc) s'
  end.

(** A property that holds a string, holds [null], or is absent. *)
Inductive jsprop :=
| PUndefined
| PNull
| PStr (s : jsstring).

(** The string a template literal makes of it. *)
Definition template (p : jsprop) : jsstring :=
  match p with
  | PUndefined => lit "undefined"
  | PNull => lit "null"
  | PStr s => s
  end.

(** [a || b] on such properties, read as a string where the code goes on
    with a string; [None] when both are falsy. *)
Definition truthy_str (p : jsprop) : option jsstring :=
  match p with
  | PStr (c :: s) => Some (c :: s)
  | _ => None
  end.

End MoreStrings.
Export MoreStrings.

(** *** backend/utils/pythonPath.js *)

Module PythonPath.

Definition is_quote (c : N) : bool := (c =? 39)%N || (c =? 34)%N.

(** [sanitizePath(candidate)]; [None] is a null or absent candidate.  The
    first [replace] drops the run of single and double quotes the trimmed
    string starts with, the second one the run of quotes it ends with. *)
Definition sanitizePath (candidate : option jsstring) : jsstring :=
  match candidate with
  | None | Some [] => []
  | Some candidate =>
      let trimmed := trim candidate in
      match trimmed with
      | [] => []
      | _ =>
          reverse (drop_while is_quote (reverse (drop_while is_quote trimmed)))
      end
  end.

End PythonPath.
Export PythonPath.

(** *** app/utils/api.ts *)

Module Api.



End Api.
Export Api.

(** *** backend/middleware/auth.js *)

Module Auth.

(** What the middleware does with the request: it answers 401 with a
    message, or it sets [req.user] and calls [next]. *)
Inductive auth_outcome (ID : Type) :=
| Denied (status : nat) (msg : jsstring)
| Next (user_id : ID).
Arguments Denied {ID} status msg.
Arguments Next {ID} user_id.

(** The token: the second of the pieces of the header between single
    spaces, when there is a header.  [None] is an absent piece or an
    absent or empty header. *)
Definition header_token (authHeader : option jsstring) : option jsstring :=
  match authHeader with
  | None | Some [] => None
  | Some h => split_on 32 [] h !! 1
  end.

(** [verifyToken(req, res, next)].  [verify] stands for
    [jwt.verify(token, process.env.JWT_SECRET)]: the [id] of the decoded
    payload, or [None] when it throws. *)
Definition verifyToken {ID} (verify : jsstring -> option ID)
    (authHeader : option jsstring) : auth_outcome ID :=
  match header_token authHeader with
  | None | Some [] => Denied 401 (lit "No token, authorization denied")
  | Some token =>
      match verify token with
      | Some id => Next id
      | None => Denied 401 (lit "Token is not valid")
      end
  end.

End Auth.
Export Auth.

(** *** backend/routes/uploadimage.js: the recommendations made when the
    recommendation script gave none *)

Module Fallback.

(** The [value] of a test: a Number, a string, or [null] or absent. *)
Inductive jsval :=
| VNull
| VNum (x : number)
| VStr (s : jsstring).

Record TestInput := mkTestInput {
  t_name : jsprop;
  t_test : jsprop;
  t_value : jsval
}.

Record Referral := mkReferral {
  r_test : jsprop;
  specialist : jsstring;
  urgency : jsstring
}.

Record Recommendations := mkRecs {
  overall_risk : jsstring;
  suggestions : list jsstring;
  specialist_referrals : list Referral
}.

(** [val] as a condition: [null], 0, NaN and the empty string are falsy. *)
Definition truthy (v : jsval) : bool :=
  match v with
  | VNull => false
  | VNum (S754_zero _) | VNum S754_nan => false
  | VNum _ => true
  | VStr s => negb (bool_decide (s = []))
  end.

(** [Number(val)] for a truthy [val]; [str_number] is the conversion of
    strings. *)
Definition to_number (str_number : jsstring -> number) (v : jsval) : number :=
  match v with
  | VNull => pos_zero
  | VNum x => x
  | VStr s => str_number s
  end.

(** The lower-cased name: [t.name], else [t.test], else the empty
    string. *)
Definition lower_name (t : TestInput) : jsstring :=
  toLowerCase
    match truthy_str (t_name t) with
    | Some s => s
    | None => default [] (truthy_str (t_test t))
    end.

Definition glucose_advice : jsstring :=
  lit ": Reduce sugar intake and check HbA1c.".
Definition creatinine_advice : jsstring :=
  lit ": Check kidney function and stay hydrated.".

Definition flag_glucose (str_number : jsstring -> number) (t : TestInput)
    : bool :=
  includes (lower_name t) (lit "glucose") && truthy (t_value t)
  && SFltb (js_number "99") (to_number str_number (t_value t)).

Definition flag_creatinine (str_number : jsstring -> number) (t : TestInput)
    : bool :=
  includes (lower_name t) (lit "creatinine") && truthy (t_value t)
  && SFltb (js_number "1.4") (to_number str_number (t_value t)).

Definition push_advice (advice spec : jsstring) (t : TestInput)
    (rec : Recommendations) : Recommendations :=
  mkRecs (overall_risk rec)
         (suggestions rec ++ [template (t_name t) ++ advice])
         (specialist_referrals rec
            ++ [mkReferral (t_name t) spec (lit "moderate")]).

(** The body of [for (const t of testsInput)]. *)
Definition fallback_step (str_number : jsstring -> number)
    (rec : Recommendations) (t : TestInput) : Recommendations :=
  let rec1 :=
    if flag_glucose str_number t
    then push_advice glucose_advice (lit "Endocrinologist") t rec else rec in
  if flag_creatinine str_number t
  then push_advice creatinine_advice (lit "Nephrologist") t rec1 else rec1.

(** The object built when [recJson] is still null; [summary] is
    [pipelineJson?.summary]. *)
Definition fallback_recommendations (str_number : jsstring -> number)
    (summary : jsprop) (testsInput : list TestInput) : Recommendations :=
  let risk :=
    match summary with
    | PStr s => if includes (toLowerCase s) (lit "warning")
                then lit "high" else lit "unknown"
    | _ => lit "unknown"
    end in
  foldl (fallback_step str_number) (mkRecs risk [] []) testsInput.

End Fallback.
Export Fallback.

(** *** backend/utils/runRecommendations.js: the JSON block of the output
    of the script *)

Module JsonBlock.

Definition is_lbrace (c : N) : bool := (c =? 123)%N.
Definition is_rbrace (c : N) : bool := (c =? 125)%N.

(** The class that holds every code unit, white space or not. *)
Definition any_unit (c : N) : bool := true.

(** The pattern of [stdout.match]: an opening brace, anything, a closing
    brace. *)
Definition jsonBlockRe : regex :=
  RSeq (RClass is_lbrace) (RSeq (RStar any_unit) (RClass is_rbrace)).

(** [jsonMatch[0]], when there is a match. *)
Definition json_block (stdout : jsstring) : option jsstring :=
  m_text <$> exec jsonBlockRe stdout.

End JsonBlock.
Export JsonBlock.

(** *** Further notions *)

Module MoreNotions.

(** The array of the references to the records of a list kept in
    [store_of]. *)
Definition all_refs (os : list LabRecord) : list loc := seq 0 (length os).

(** A Number that is +0, positive and finite, or +Infinity. *)
Definition nonneg_number (x : number) : Prop :=
  match x with
  | S754_zero false | S754_infinity false | S754_finite false _ _ => True
  | _ => False
  end.

(** Each suggestion is the advice that goes with the referral at the same
    place. *)
Definition advice_of (r : Referral) : jsstring :=
  template (r_test r)
  ++ (if decide (specialist r = lit "Endocrinologist") then glucose_advice
      else creatinine_advice).

(** The referrals one round of the loop adds for a test. *)
Definition round_referrals (str_number : jsstring -> number) (t : TestInput)
    : list Referral :=
  (if flag_glucose str_number t
   then [mkReferral (t_name t) (lit "Endocrinologist") (lit "moderate")]
   else [])
  ++ (if flag_creatinine str_number t
      then [mkReferral (t_name t) (lit "Nephrologist") (lit "moderate")]
      else []).

(** Sample inputs for the helpers. *)
Definition glucose_test : TestInput :=
  mkTestInput (PStr (lit "Fasting Glucose")) PUndefined
              (VNum (js_number "105")).
Definition glucose_null : TestInput :=
  mkTestInput (PStr (lit "Fasting Glucose")) PUndefined VNull.
Definition bearer_header : jsstring := lit "Bearer abc.def.ghi".
Definition range_first_line : jsstring := lit "Fasting Glucose (70-99) 105".
Definition hb_125 : LabRecord :=
  mkLabRecord (lit "Hemoglobin") (lit "Hemoglobin 12.5")
              (Some (js_number "12.5")) None None None None None.
Definition hb_13 : LabRecord :=
  mkLabRecord (lit "Hemoglobin") (lit "Hemoglobin 13.0")
              (Some (js_number "13.0")) None None None None None.

End MoreNotions.
Export MoreNotions.

(** * Properties *)

(** ** The override step *)

Section OverrideStep.

Implicit Types (h : store) (preds : list loc) (items : list LabRecord).
Implicit Types (o : LabRecord) (p q : loc).

Lemma override_same_inputs items o : same_inputs o (override items o).
Proof.
  unfold override, same_inputs.
  destruct (js_lt _ _); [|destruct (js_gt _ _)]; simpl; tauto.
Qed.

Lemma override_test items o : test (override items o) = test o.
Proof. apply override_same_inputs. Qed.

Lemma override_rule_overridden items o :
  rule_overridden (override items o) = Some true.
Proof. reflexivity. Qed.

Lemma override_prediction items o :
  prediction (override items o) =
    Some (if js_lt (value o) (lower_bound (item_sex items)) then lit "low"
          else if js_gt (value o) (upper_bound (item_sex items)) then lit "high"
          else lit "normal").
Proof.
  unfold override.
  destruct (js_lt _ _); [|destruct (js_gt _ _)]; reflexivity.
Qed.

(** Running the body twice writes what running it once writes. *)
Lemma override_idemp items o :
  override items (override items o) = override items o.
Proof.
  unfold override.
  destruct (js_lt (value o) _) eqn:Hlt; simpl.
  - rewrite Hlt. reflexivity.
  - destruct (js_gt (value o) _) eqn:Hgt; simpl; rewrite Hlt, Hgt; reflexivity.
Qed.

Lemma callback_ref items h p : (callback items h p).2 = p.
Proof.
  unfold callback. destruct (h !! p) as [o|]; [|done].
  destruct (is_hemoglobin (test o)); done.
Qed.

Lemma callback_lookup items h p q :
  (callback items h p).1 !! q =
    if decide (p = q)
    then (fun o => if is_hemoglobin (test o) then override items o else o)
           <$> h !! q
    else h !! q.
Proof.
  unfold callback. destruct (decide (p = q)) as [->|Hne].
  - destruct (h !! q) as [o|] eqn:Hq; simpl; [|done].
    destruct (is_hemoglobin (test o)); simpl; [apply lookup_insert_eq | done].
  - destruct (h !! p) as [o|]; [|done].
    destruct (is_hemoglobin (test o)); simpl; [|done].
    by apply lookup_insert_ne.
Qed.

(** The new array holds the references of the old one. *)
Lemma array_map_refs items preds h : (array_map items h preds).2 = preds.
Proof.
  revert h. induction preds as [|p preds IH]; intros h; [done|].
  simpl. pose proof (callback_ref items h p) as Hq.
  destruct (callback items h p) as [h1 q]. simpl in Hq. subst q.
  specialize (IH h1). destruct (array_map items h1 preds) as [h2 out].
  simpl in *. by f_equal.
Qed.

(** What the store holds at [q] once the whole array was visited. *)
Lemma array_map_lookup items preds h q :
  (array_map items h preds).1 !! q =
    match h !! q with
    | Some o =>
        if bool_decide (q ∈ preds) && is_hemoglobin (test o)
        then Some (override items o) else Some o
    | None => None
    end.
Proof.
  revert h. induction preds as [|p preds IH]; intros h.
  - cbn [array_map fst]. destruct (h !! q); [|done].
    by rewrite (bool_decide_eq_false_2 (q ∈ [])) by apply not_elem_of_nil.
  - cbn [array_map]. pose proof (callback_lookup items h p q) as Hcb.
    destruct (callback items h p) as [h1 r]. cbn [fst] in Hcb.
    specialize (IH h1). destruct (array_map items h1 preds) as [h2 out].
    cbn [fst] in *. rewrite IH, Hcb. clear IH Hcb.
    destruct (decide (p = q)) as [->|Hne].
    + destruct (h !! q) as [o|]; [|done]. cbn [fmap option_fmap option_map].
      rewrite (bool_decide_eq_true_2 (q ∈ q :: preds)) by left.
      destruct (is_hemoglobin (test o)) eqn:Hh; cbn [andb].
      * rewrite override_test, Hh, override_idemp.
        by destruct (bool_decide _).
      * rewrite Hh. by rewrite andb_false_r.
    + destruct (h !! q) as [o|]; [|done].
      assert (bool_decide (q ∈ p :: preds) = bool_decide (q ∈ preds)) as ->;
        [|done].
      apply bool_decide_ext. rewrite elem_of_cons.
      split; [intros [?|?]; [congruence|done] | by right].
Qed.

End OverrideStep.

(** The numeric literals of the step are exact. *)
Lemma bounds_exact :
  js_number "12.0" = dyadic 12 0 /\ js_number "16.0" = dyadic 16 0 /\
  js_number "13.0" = dyadic 13 0 /\ js_number "17.5" = dyadic 35 (-1).
Proof. by vm_compute. Qed.

(** An absent or empty [sex], like an explicit "M", resolves to "M". *)
Lemma item_sex_cases items :
  (found_sex items = Some (lit "F") -> item_sex items = lit "F") /\
  (found_sex items = Some (lit "M") \/ found_sex items = None \/
   found_sex items = Some [] ->
   item_sex items = lit "M").
Proof.
  unfold item_sex.
  split; [intros ->; reflexivity | intros [->|[->| ->]]; reflexivity].
Qed.

(** C1. A record of the array whose test name matches [/hemoglobin/i] ends
    up with [rule_overridden] true and with the prediction of the fixed
    bounds, 12.0 and 16.0 for sex F, 13.0 and 17.5 for sex M or for no sex at
    all (absent or empty): "low" below the lower bound, "high" above the
    upper one, "normal" otherwise.  The sex is the one of the first item
    whose name matches.  Neither the inline range of the record nor its
    earlier prediction has a say, and the fields the parser wrote stay as
    they were. *)
Theorem hemoglobin_override_applied (h : store) preds items p o :
  p ∈ preds -> h !! p = Some o -> is_hemoglobin (test o) = true ->
  exists o',
    (applyHemoglobinRule h preds items).1 !! p = Some o' /\
    rule_overridden o' = Some true /\
    same_inputs o o' /\
    forall lower upper,
      (found_sex items = Some (lit "F") /\
       lower = js_number "12.0" /\ upper = js_number "16.0") \/
      ((found_sex items = Some (lit "M") \/ found_sex items = None \/
        found_sex items = Some []) /\
       lower = js_number "13.0" /\ upper = js_number "17.5") ->
      prediction o' =
        Some (if js_lt (value o) lower then lit "low"
              else if js_gt (value o) upper then lit "high"
              else lit "normal").
Proof.
  intros Hin Hp Hh. exists (override items o).
  unfold applyHemoglobinRule. rewrite array_map_lookup, Hp, Hh.
  rewrite bool_decide_eq_true_2 by done. cbn [andb].
  split; [done|]. split; [apply override_rule_overridden|].
  split; [apply override_same_inputs|].
  intros lower upper Hb. rewrite override_prediction.
  destruct (item_sex_cases items) as [HF HM].
  destruct Hb as [(Hs & -> & ->)|(Hs & -> & ->)].
  - unfold lower_bound, upper_bound. rewrite (HF Hs).
    rewrite !decide_True by done. reflexivity.
  - unfold lower_bound, upper_bound. rewrite (HM Hs).
    rewrite !decide_False by (by vm_compute). reflexivity.
Qed.

Lemma hemoglobin_override_applied_witness :
  (0 ∈ [0] /\ store_of [hbF] !! 0 = Some hbF /\
   is_hemoglobin (test hbF) = true) /\
  exists o',
    (applyHemoglobinRule (store_of [hbF]) [0] [hbF]).1 !! 0 = Some o' /\
    rule_overridden o' = Some true /\
    prediction o' = Some (lit "low").
Proof.
  assert (H1 : 0 ∈ [0]) by constructor.
  assert (H2 : store_of [hbF] !! 0 = Some hbF) by reflexivity.
  assert (H3 : is_hemoglobin (test hbF) = true) by (vm_compute; reflexivity).
  split; [auto|].
  destruct (hemoglobin_override_applied (store_of [hbF]) [0] [hbF] 0 hbF
              H1 H2 H3) as (o' & Ho & Hr & _ & Hpred).
  exists o'. split; [exact Ho|]. split; [exact Hr|].
  rewrite (Hpred (js_number "12.0") (js_number "16.0")).
  - reflexivity.
  - left. split; [vm_compute; reflexivity | split; reflexivity].
Defined.

(** C2. The step does classify a hemoglobin record whose value is null,
    such as the record the parser makes of a hemoglobin line without a
    number: the comparison reads null as +0, which is below either lower
    bound, so the record comes out as "low" with [rule_overridden] true. *)
Example null_hemoglobin_classified_low :
  parseExtractedValues (Some (lit "Hemoglobin: pending")) = [hb_null] /\
  value hb_null = None /\ prediction hb_null = None /\
  (applyHemoglobinRule (store_of [hb_null]) [0] []).1 !! 0 =
    Some (set_rule_overridden true (set_prediction (lit "low") hb_null)).
Proof. repeat split; by vm_compute. Qed.

(** C9, as stated: the store after the step is the store before it.  It is
    not: the hemoglobin record of the input has been edited. *)
Example override_edits_in_place :
  (applyHemoglobinRule (store_of [hbM]) [0] []).1 !! 0 <> store_of [hbM] !! 0.
Proof. by vm_compute. Qed.

(** C9, amended. The step returns the references it was given; it creates
    and removes no object; on every object it leaves the fields [test],
    [line], [value], [ref_lower], [ref_upper] and [sex] as they were; the
    only objects it edits at all are those of the array whose test name
    matches [/hemoglobin/i]; and on each of those it does write: it sets
    [rule_overridden] to true and [prediction] to "low", "high" or "normal"
    by the bounds of the sex. *)
Theorem override_frame (h : store) preds items :
  (applyHemoglobinRule h preds items).2 = preds /\
  forall q,
    match h !! q, (applyHemoglobinRule h preds items).1 !! q with
    | Some o, Some o' =>
        same_inputs o o' /\
        (o' <> o -> q ∈ preds /\ is_hemoglobin (test o) = true) /\
        (q ∈ preds -> is_hemoglobin (test o) = true ->
         rule_overridden o' = Some true /\
         prediction o' =
           Some (if js_lt (value o) (lower_bound (item_sex items))
                 then lit "low"
                 else if js_gt (value o) (upper_bound (item_sex items))
                      then lit "high"
                      else lit "normal"))
    | None, None => True
    | _, _ => False
    end.
Proof.
  unfold applyHemoglobinRule. split; [apply array_map_refs|].
  intros q. rewrite array_map_lookup.
  destruct (h !! q) as [o|]; [|done].
  destruct (bool_decide (q ∈ preds)) eqn:Hin;
    [destruct (is_hemoglobin (test o)) eqn:Hh|]; cbn [andb].
  - split; [apply override_same_inputs|]. split.
    + intros _. split; [by apply bool_decide_eq_true_1 in Hin | done].
    + intros _ _. split;
        [apply override_rule_overridden | apply override_prediction].
  - split; [by unfold same_inputs|]. split; [done|]. intros _ Hh'.
    discriminate Hh'.
  - split; [by unfold same_inputs|]. split; [done|]. intros Hq.
    by apply bool_decide_eq_false_1 in Hin.
Qed.

Lemma override_frame_witness :
  (applyHemoglobinRule (store_of [wbc_pred; hbM]) [0; 1] []).2 = [0; 1] /\
  (applyHemoglobinRule (store_of [wbc_pred; hbM]) [0; 1] []).1 !! 0
    = Some wbc_pred /\
  exists o',
    (applyHemoglobinRule (store_of [wbc_pred; hbM]) [0; 1] []).1 !! 1
      = Some o' /\
    rule_overridden o' = Some true /\ prediction o' = Some (lit "low").
Proof.
  destruct (override_frame (store_of [wbc_pred; hbM]) [0; 1] [])
    as [Hrefs Hq].
  split; [exact Hrefs|]. split; [vm_compute; reflexivity|].
  assert (E1 : store_of [wbc_pred; hbM] !! 1 = Some hbM) by reflexivity.
  assert (E2 : (applyHemoglobinRule (store_of [wbc_pred; hbM]) [0; 1] []).1 !! 1
               = Some (override [] hbM)) by (vm_compute; reflexivity).
  specialize (Hq 1). unfold loc in *. rewrite E1, E2 in Hq.
  exists (override [] hbM). split; [exact E2|].
  destruct Hq as (_ & _ & Hw).
  destruct Hw as [Hr Hp].
  - rewrite !elem_of_cons. auto.
  - vm_compute. reflexivity.
  - split; [exact Hr|]. rewrite Hp. vm_compute. reflexivity.
Defined.

(** C10. A record whose test name does not match [/hemoglobin/i] is the
    same object with the same fields after the step, and the array the step
    returns lists the references of the input array, in the same order. *)
Theorem non_hemoglobin_unchanged (h : store) preds items p o :
  h !! p = Some o -> is_hemoglobin (test o) = false ->
  (applyHemoglobinRule h preds items).1 !! p = Some o /\
  (applyHemoglobinRule h preds items).2 = preds.
Proof.
  intros Hp Hh. unfold applyHemoglobinRule.
  rewrite array_map_lookup, array_map_refs, Hp, Hh, andb_false_r. done.
Qed.

Lemma non_hemoglobin_unchanged_witness :
  (store_of [wbc_pred; hb_record] !! 0 = Some wbc_pred /\
   is_hemoglobin (test wbc_pred) = false) /\
  (applyHemoglobinRule (store_of [wbc_pred; hb_record]) [0; 1] []).1 !! 0
    = Some wbc_pred /\
  (applyHemoglobinRule (store_of [wbc_pred; hb_record]) [0; 1] []).2 = [0; 1].
Proof.
  assert (H1 : store_of [wbc_pred; hb_record] !! 0 = Some wbc_pred)
    by reflexivity.
  assert (H2 : is_hemoglobin (test wbc_pred) = false)
    by (vm_compute; reflexivity).
  split; [auto|].
  exact (non_hemoglobin_unchanged (store_of [wbc_pred; hb_record]) [0; 1] []
           0 wbc_pred H1 H2).
Defined.

(** ** The scanning loops *)

Section Loops.

Implicit Types (found : list LabRecord) (t : TestEntry) (l : jsstring).

Lemma loop_names_spec found t l nms :
  loop_names found t l nms =
    found ++ (if existsb (fun nm => test_i nm l) nms then [extract t l] else []).
Proof.
  induction nms as [|nm nms IH]; simpl.
  - by rewrite app_nil_r.
  - destruct (test_i nm l); [done | exact IH].
Qed.

(** A matched entry contributes exactly its record. *)
Lemma loop_names_match found t l :
  entry_matches t l = true ->
  loop_names found t l (names t) = found ++ [extract t l].
Proof. intros H. rewrite loop_names_spec. unfold entry_matches in H. by rewrite H. Qed.

Lemma loop_names_no_match found t l :
  entry_matches t l = false -> loop_names found t l (names t) = found.
Proof.
  intros H. rewrite loop_names_spec. unfold entry_matches in H.
  by rewrite H, app_nil_r.
Qed.

Lemma loop_tests_spec found ts l :
  loop_tests found ts l =
    found ++ ((fun t => extract t l)
                <$> filter (fun t => entry_matches t l = true) ts).
Proof.
  unfold loop_tests. revert found.
  induction ts as [|t ts IH]; intros found; simpl.
  - by rewrite app_nil_r.
  - rewrite IH, filter_cons.
    destruct (entry_matches t l) eqn:Hm.
    + rewrite (loop_names_match _ _ _ Hm), decide_True by done.
      by rewrite <- app_assoc.
    + rewrite (loop_names_no_match _ _ _ Hm), decide_False by done. done.
Qed.

Lemma loop_lines_spec found ls :
  loop_lines found ls = found ++ (ls ≫= loop_tests [] tests).
Proof.
  unfold loop_lines. generalize tests. intros ts. revert found.
  induction ls as [|l ls IH]; intros found; simpl.
  - by rewrite app_nil_r.
  - rewrite IH, (loop_tests_spec found), (loop_tests_spec []).
    by rewrite app_assoc.
Qed.

Lemma parse_unfold text :
  parseExtractedValues text = dedup_loop [] ∅ (found_of text).
Proof. destruct text as [[|c text]|]; reflexivity. Qed.

Lemma dedup_loop_acc acc seen found :
  dedup_loop acc seen found = acc ++ dedup_loop [] seen found.
Proof.
  revert acc seen. induction found as [|f found IH]; intros acc seen; simpl.
  - by rewrite app_nil_r.
  - destruct (decide (test f ∈ seen)); [apply IH|].
    rewrite (IH (acc ++ [f])), (IH ([] ++ [f])). by rewrite <- app_assoc.
Qed.

Lemma dedup_loop_cons seen f found :
  dedup_loop [] seen (f :: found) =
    if decide (test f ∈ seen) then dedup_loop [] seen found
    else f :: dedup_loop [] (seen ∪ {[test f]}) found.
Proof.
  simpl. destruct (decide (test f ∈ seen)); [done|].
  by rewrite dedup_loop_acc.
Qed.

Lemma dedup_loop_fresh seen found r :
  r ∈ dedup_loop [] seen found -> test r ∉ seen.
Proof.
  revert seen. induction found as [|f found IH]; intros seen.
  - simpl. by intros ?%elem_of_nil.
  - rewrite dedup_loop_cons. destruct (decide (test f ∈ seen)) as [|Hf].
    + apply IH.
    + intros [->|Hr%IH]%elem_of_cons; [done|].
      intros ?. apply Hr, elem_of_union. by left.
Qed.

Lemma dedup_loop_NoDup seen found :
  NoDup (test <$> dedup_loop [] seen found).
Proof.
  revert seen. induction found as [|f found IH]; intros seen.
  - simpl. constructor.
  - rewrite dedup_loop_cons. destruct (decide (test f ∈ seen)); [apply IH|].
    rewrite fmap_cons. constructor; [|apply IH].
    intros (r & Heq & Hr%dedup_loop_fresh)%list_elem_of_fmap.
    apply Hr, elem_of_union. right. by apply elem_of_singleton.
Qed.

Lemma dedup_loop_sublist seen found :
  sublist (dedup_loop [] seen found) found.
Proof.
  revert seen. induction found as [|f found IH]; intros seen.
  - simpl. constructor.
  - rewrite dedup_loop_cons. destruct (decide (test f ∈ seen)).
    + apply sublist_cons, IH.
    + apply sublist_skip, IH.
Qed.

Lemma dedup_loop_first seen found r :
  r ∈ dedup_loop [] seen found <->
  exists i, first_with_key found i r /\ test r ∉ seen.
Proof.
  unfold first_with_key. revert seen.
  induction found as [|f found IH]; intros seen.
  - simpl. split; [by intros ?%elem_of_nil | by intros (i & [? _] & _)].
  - rewrite dedup_loop_cons. destruct (decide (test f ∈ seen)) as [Hf|Hf].
    + rewrite IH. split.
      * intros (i & [Hi Hfirst] & Hr). exists (S i). split; [split|]; try done.
        intros [|j] r' Hj Hr'; simpl in Hr'.
        -- injection Hr' as <-. congruence.
        -- apply (Hfirst j); [lia | done].
      * intros ([|i] & [Hi Hfirst] & Hr); simpl in Hi.
        -- injection Hi as <-. done.
        -- exists i. split; [split|]; try done.
           intros j r' Hj Hr'. apply (Hfirst (S j)); [lia | done].
    + rewrite elem_of_cons, IH. split.
      * intros [->|(i & [Hi Hfirst] & Hr)].
        -- exists 0. split; [split|]; try done. intros j r' Hj. lia.
        -- apply not_elem_of_union in Hr as [Hr Hne].
           apply not_elem_of_singleton in Hne.
           exists (S i). split; [split|]; try done.
           intros [|j] r' Hj Hr'; simpl in Hr'.
           ++ injection Hr' as <-. congruence.
           ++ apply (Hfirst j); [lia | done].
      * intros ([|i] & [Hi Hfirst] & Hr); simpl in Hi.
        -- injection Hi as <-. by left.
        -- right. exists i. split; [split|]; try done.
           ++ intros j r' Hj Hr'. apply (Hfirst (S j)); [lia | done].
           ++ specialize (Hfirst 0 f ltac:(lia) eq_refl).
              apply not_elem_of_union. split; [done|].
              by apply not_elem_of_singleton.
Qed.

End Loops.

(** C3. Whatever the text, the records found are those of its lines in
    order, each line giving its records in registry order.  In the output no
    two records have the same test key; the output is that sequence with
    some records left out, order kept; and a record is in the output
    exactly when it is the first found record with its key. *)
Theorem output_deduplicated_first_wins (text : option jsstring) :
  found_of text =
    (l ← scanned_lines text;
     (fun t => extract t l) <$> filter (fun t => entry_matches t l = true) tests)
  /\
  NoDup (test <$> parseExtractedValues text) /\
  sublist (parseExtractedValues text) (found_of text) /\
  forall r,
    r ∈ parseExtractedValues text <->
    exists i, first_with_key (found_of text) i r.
Proof.
  split.
  { unfold found_of. rewrite loop_lines_spec, app_nil_l.
    apply list_bind_ext; [|done]. intros l. by rewrite loop_tests_spec. }
  rewrite parse_unfold.
  split; [apply dedup_loop_NoDup|]. split; [apply dedup_loop_sublist|].
  intros r. rewrite dedup_loop_first. split.
  - intros (i & Hi & _). by exists i.
  - intros (i & Hi). exists i. split; [done | apply not_elem_of_empty].
Qed.

Lemma output_deduplicated_first_wins_witness :
  NoDup (test <$> parseExtractedValues (Some two_hb_lines)) /\
  test <$> parseExtractedValues (Some two_hb_lines) = [lit "Hemoglobin"].
Proof.
  split.
  - exact (proj1 (proj2 (output_deduplicated_first_wins (Some two_hb_lines)))).
  - vm_compute. reflexivity.
Defined.

(** Of two lines with the same test name, the first one is kept. *)
Example duplicate_lines_first_wins :
  (fun r => (test r, value r)) <$> parseExtractedValues (Some two_hb_lines)
  = [(lit "Hemoglobin", Some (js_number "11.2"))].
Proof. by vm_compute. Qed.

(** C7. On a line, the registry entries are tried one after the other and
    each on its own: the records the line adds are, in registry order, one
    record for every entry with a matching pattern.  Within an entry the
    first matching pattern adds the record and ends the entry, whatever
    patterns follow it; an entry without a matching pattern adds nothing. *)
Theorem entries_independent found (l : jsstring) :
  loop_tests found tests l =
    found ++ ((fun t => extract t l)
                <$> filter (fun t => entry_matches t l = true) tests) /\
  (forall t found' pre nm post,
     existsb (fun nm' => test_i nm' l) pre = false -> test_i nm l = true ->
     loop_names found' t l (pre ++ nm :: post) = found' ++ [extract t l]) /\
  (forall t found',
     entry_matches t l = false -> loop_names found' t l (names t) = found').
Proof.
  split; [apply loop_tests_spec|]. split.
  - intros t found' pre nm post Hpre Hnm.
    rewrite loop_names_spec, existsb_app, Hpre. simpl. by rewrite Hnm.
  - intros t found'. apply loop_names_no_match.
Qed.

Lemma entries_independent_witness :
  test <$> loop_tests [] tests (lit "MCHC 33.1") = [lit "MCH"; lit "MCHC"].
Proof.
  rewrite (proj1 (entries_independent [] (lit "MCHC 33.1"))).
  vm_compute. reflexivity.
Defined.

(** C8. A null text, an empty text, and a text none of whose lines is
    matched by any pattern of the registry all parse to the empty
    sequence.  The parser is a total function: there is no input on which
    it fails. *)
Theorem no_match_empty_output :
  parseExtractedValues None = [] /\
  parseExtractedValues (Some []) = [] /\
  forall text,
    (forall l t nm,
       l ∈ scanned_lines (Some text) -> t ∈ tests -> nm ∈ names t ->
       test_i nm l = false) ->
    parseExtractedValues (Some text) = [].
Proof.
  split; [done|]. split; [done|]. intros text Hno.
  rewrite parse_unfold. unfold found_of.
  rewrite loop_lines_spec, app_nil_l.
  assert (scanned_lines (Some text) ≫= loop_tests [] tests = []) as ->;
    [|done].
  induction (scanned_lines (Some text)) as [|l ls IH]; [done|].
  rewrite bind_cons, IH.
  - rewrite loop_tests_spec, app_nil_l, app_nil_r.
    assert (filter (fun t => entry_matches t l = true) tests = []) as ->;
      [|done].
    apply elem_of_nil_inv. intros t [Hm Ht]%list_elem_of_filter.
    unfold entry_matches in Hm. apply existsb_exists in Hm as (nm & Hnm & Hm).
    rewrite (Hno l t nm) in Hm; [done| by left | done |].
    by apply list_elem_of_In.
  - intros l' t nm Hl'. apply Hno. by right.
Qed.
Lemma no_match_empty_output_witness :
  parseExtractedValues (Some (lit "Patient: J. Doe")) = [].
Proof.
  apply (proj2 (proj2 no_match_empty_output)).
  intros l t nm Hl Ht Hnm.
  assert (Hall : forallb (fun l => forallb (fun nm => negb (test_i nm l))
                                         (tests ≫= names))
                   (scanned_lines (Some (lit "Patient: J. Doe"))) = true)
    by (vm_compute; reflexivity).
  rewrite forallb_forall in Hall.
  specialize (Hall l ltac:(by apply list_elem_of_In)).
  rewrite forallb_forall in Hall.
  apply negb_true_iff, Hall, list_elem_of_In, list_elem_of_bind. by exists t.
Defined.

(** ** The matcher *)

Section Matcher.

Implicit Types (r : regex) (s u rest : jsstring) (p : N -> bool).

Lemma head_bind_elem {A B} (f : A -> list B) (l : list A) y :
  head (l ≫= f) = Some y -> exists x, x ∈ l /\ head (f x) = Some y.
Proof.
  induction l as [|x l IH]; [done|].
  rewrite bind_cons, head_app. destruct (head (f x)) as [z|] eqn:Hx.
  - intros [= <-]. exists x. split; [by left | done].
  - intros (x' & Hin & Hh)%IH. exists x'. split; [by right | done].
Qed.

Lemma head_bind_first {A B} (f : A -> list B) (l : list A) x :
  head l = Some x -> f x <> [] -> head (l ≫= f) = head (f x).
Proof.
  destruct l as [|x' l]; [done|]. intros [= ->] Hne.
  rewrite bind_cons, head_app. by destruct (f x).
Qed.

Lemma head_fmap {A B} (f : A -> B) (l : list A) :
  head (f <$> l) = f <$> head l.
Proof. by destruct l. Qed.

Lemma take_while_drop_while p s : take_while p s ++ drop_while p s = s.
Proof.
  induction s as [|c s IH]; [done|]. simpl.
  destruct (p c); simpl; [by rewrite IH | done].
Qed.

Lemma take_while_all p s : all p (take_while p s).
Proof.
  unfold all. induction s as [|c s IH]; simpl; [constructor|].
  destruct (p c) eqn:Hc; constructor; done.
Qed.

Lemma drop_while_head p s c s' : drop_while p s = c :: s' -> p c = false.
Proof.
  induction s as [|a s IH]; simpl; [done|].
  destruct (p a) eqn:Ha; [done|]. by intros [= <- <-].
Qed.

Lemma star_run_head p s : head (star_run p s) = Some (drop_while p s).
Proof.
  induction s as [|c s IH]; [done|]. simpl.
  destruct (p c); [|done]. by rewrite head_app, IH.
Qed.

Lemma star_run_elem p s rest :
  rest ∈ star_run p s <-> exists u, s = u ++ rest /\ all p u.
Proof.
  unfold all. induction s as [|c s IH]; simpl.
  - rewrite list_elem_of_singleton. split.
    + intros ->. exists []. split; [done | constructor].
    + intros (u & Hu & _). symmetry in Hu. by apply app_eq_nil in Hu as [_ ->].
  - destruct (p c) eqn:Hc.
    + rewrite elem_of_app, IH, list_elem_of_singleton. split.
      * intros [(u & -> & Hu)| ->].
        -- exists (c :: u). split; [done | by constructor].
        -- exists []. split; [done | constructor].
      * intros ([|c' u] & Heq & Hu); simpl in Heq.
        -- by right.
        -- injection Heq as <- ->. left. exists u. split; [done|].
           by inversion Hu.
    + rewrite list_elem_of_singleton. split.
      * intros ->. exists []. split; [done | constructor].
      * intros ([|c' u] & Heq & Hu); simpl in Heq; [done|].
        injection Heq as <- ->. inversion Hu; congruence.
Qed.

(** Every alternative the matcher finds is a match of the pattern ... *)
Lemma run_sound r s c rest :
  (c, rest) ∈ run r s -> exists u, s = u ++ rest /\ sem r u c.
Proof.
  revert s c rest. induction r as [|p|r1 IH1 r2 IH2|r IH|p|r IH];
    intros s c rest; simpl.
  - intros [= -> ->]%list_elem_of_singleton. exists []. split; [done|constructor].
  - destruct s as [|a s]; [by intros ?%elem_of_nil|].
    destruct (p a) eqn:Ha; [|by intros ?%elem_of_nil].
    intros [= -> ->]%list_elem_of_singleton.
    exists [a]. split; [done | by constructor].
  - intros ([c1 s1] & Hin & H1)%list_elem_of_bind.
    apply list_elem_of_bind in Hin as ([c2 s2] & Hin & H2).
    apply list_elem_of_singleton in Hin as [= -> ->].
    apply IH1 in H1 as (u1 & -> & Hs1). apply IH2 in H2 as (u2 & -> & Hs2).
    exists (u1 ++ u2). split; [by rewrite app_assoc | by constructor].
  - intros [Hin|[= -> ->]%list_elem_of_singleton]%elem_of_app.
    + apply IH in Hin as (u & -> & Hs). exists u.
      split; [done | by apply sem_opt_some].
    + exists []. split; [done | apply sem_opt_none].
  - intros (s' & [= -> ->] & (u & -> & Hu)%star_run_elem)%list_elem_of_fmap.
    exists u. split; [done | by constructor].
  - intros ([c0 s'] & [= -> ->] & Hin)%list_elem_of_fmap.
    apply IH in Hin as (u & -> & Hs). exists u. split; [done|].
    rewrite length_app, Nat.add_sub, take_app_length. by constructor.
Qed.

(** ... and every match of the pattern is among them. *)
Lemma run_complete r u c :
  sem r u c -> forall rest, (c, rest) ∈ run r (u ++ rest).
Proof.
  induction 1 as [|p a Ha|r1 r2 u1 u2 c1 c2 _ IH1 _ IH2|r u c _ IH|r|p u Hu
                 |r u c _ IH]; intros rest; simpl.
  - by apply list_elem_of_singleton.
  - rewrite Ha. by apply list_elem_of_singleton.
  - apply list_elem_of_bind. exists (c1, u2 ++ rest).
    split; [|rewrite <- app_assoc; apply IH1].
    apply list_elem_of_bind. exists (c2, rest).
    split; [by apply list_elem_of_singleton | apply IH2].
  - apply elem_of_app. left. apply IH.
  - apply elem_of_app. right. by apply list_elem_of_singleton.
  - apply list_elem_of_fmap. exists rest. split; [done|].
    apply star_run_elem. by exists u.
  - apply list_elem_of_fmap. exists (c, rest). split; [|apply IH].
    by rewrite length_app, Nat.add_sub, take_app_length.
Qed.

Lemma run_nil_no_sem r u c rest : run r (u ++ rest) = [] -> ~ sem r u c.
Proof.
  intros Hnil Hsem. apply run_complete with (rest := rest) in Hsem.
  rewrite Hnil in Hsem. by apply elem_of_nil in Hsem.
Qed.

Lemma run_seq r1 r2 s :
  run (RSeq r1 r2) s =
    '(c1, s1) ← run r1 s; '(c2, s2) ← run r2 s1; [(c1 ++ c2, s2)].
Proof. reflexivity. Qed.

Lemma run_group r s :
  run (RGroup r) s =
    (fun '(c, s') => (c ++ [take (length s - length s') s], s')) <$> run r s.
Proof. reflexivity. Qed.

Lemma run_opt r s : run (ROpt r) s = run r s ++ [([], s)].
Proof. reflexivity. Qed.

Lemma run_star p s : run (RStar p) s = (fun s' => ([], s')) <$> star_run p s.
Proof. reflexivity. Qed.

Lemma head_run_seq r1 r2 s c rest :
  head (run (RSeq r1 r2) s) = Some (c, rest) ->
  exists c1 s1 c2,
    (c1, s1) ∈ run r1 s /\ head (run r2 s1) = Some (c2, rest) /\ c = c1 ++ c2.
Proof.
  rewrite run_seq. intros ([c1 s1] & Hin & Hh)%head_bind_elem.
  destruct (run r2 s1) as [|[c2 s2] l2] eqn:H2; [done|].
  rewrite bind_cons in Hh. injection Hh as <- <-.
  exists c1, s1, c2. by rewrite H2.
Qed.

Lemma head_run_group r s c rest :
  head (run (RGroup r) s) = Some (c, rest) ->
  exists c0,
    head (run r s) = Some (c0, rest) /\
    c = c0 ++ [take (length s - length rest) s].
Proof.
  rewrite run_group, head_fmap.
  destruct (head (run r s)) as [[c0 s']|]; intros H; simplify_eq/=.
  by exists c0.
Qed.

Lemma exec_here_Some r s m :
  exec_here r s = Some m ->
  m_index m = 0 /\ s = m_text m ++ m_rest m /\
  head (run r s) = Some (m_caps m, m_rest m).
Proof.
  unfold exec_here. destruct (head (run r s)) as [[c rest]|] eqn:Hh; [|done].
  intros [= <-]. simpl. split; [done|]. split; [|done].
  apply head_Some_elem_of, run_sound in Hh as (u & -> & _).
  by rewrite length_app, Nat.add_sub, take_app_length.
Qed.

Lemma exec_here_None r s : exec_here r s = None -> run r s = [].
Proof.
  unfold exec_here. destruct (run r s) as [|[c rest] l]; [done|]. done.
Qed.

(** [exec] answers with the leftmost position at which the pattern matches
    at all, and there with the alternative the matcher tries first. *)
Lemma exec_Some r l m :
  exec r l = Some m ->
  exists pre,
    l = pre ++ m_text m ++ m_rest m /\ length pre = m_index m /\
    head (run r (m_text m ++ m_rest m)) = Some (m_caps m, m_rest m) /\
    forall pre' s', l = pre' ++ s' -> length pre' < length pre -> run r s' = [].
Proof.
  revert m. induction l as [|a l IH]; intros m; simpl.
  - destruct (exec_here r []) as [m'|] eqn:Hh; [|done].
    intros [= ->]. apply exec_here_Some in Hh as (Hi & Hs & Hr).
    exists []. rewrite <- Hs. repeat split; try done.
    intros pre' s' _ Hlt. simpl in Hlt. lia.
  - destruct (exec_here r (a :: l)) as [m'|] eqn:Hh.
    + intros [= ->]. apply exec_here_Some in Hh as (Hi & Hs & Hr).
      exists []. rewrite <- Hs. repeat split; try done.
      intros pre' s' _ Hlt. simpl in Hlt. lia.
    + destruct (exec r l) as [m'|]; [|done]. intros [= <-].
      destruct (IH m' eq_refl) as (pre & Hl & Hlen & Hr & Hmin).
      exists (a :: pre). simpl. rewrite <- Hl, Hlen. repeat split; try done.
      intros [|a' pre'] s' Heq Hlt; simpl in *.
      * subst s'. by apply exec_here_None.
      * injection Heq as <- ->. apply (Hmin pre'); [done | lia].
Qed.

Lemma exec_None r l :
  exec r l = None -> forall pre s', l = pre ++ s' -> run r s' = [].
Proof.
  induction l as [|a l IH]; simpl.
  - destruct (exec_here r []) eqn:Hh; [done|]. intros _ pre s' Heq.
    symmetry in Heq. apply app_eq_nil in Heq as [_ ->].
    by apply exec_here_None.
  - destruct (exec_here r (a :: l)) eqn:Hh; [done|].
    destruct (exec r l) eqn:He; [done|]. intros _ [|a' pre] s' Heq; simpl in *.
    + subst s'. by apply exec_here_None.
    + injection Heq as <- ->. by apply (IH eq_refl pre).
Qed.

(** One more round of fuel than the input has code units is enough. *)
Lemma matchAll_go_fuel r n1 n2 s :
  length s < n1 -> length s < n2 -> matchAll_go n1 r s = matchAll_go n2 r s.
Proof.
  revert n2 s. induction n1 as [|n1 IH]; intros [|n2] s H1 H2; try lia.
  simpl. destruct (exec r s) as [m|] eqn:He; [|done]. f_equal.
  apply exec_Some in He as (pre & Hs & _ & _ & _).
  apply (f_equal length) in Hs. rewrite !length_app in Hs.
  destruct (m_text m) as [|c u]; [destruct (m_rest m) as [|c rest'] |];
    simpl in *; [done| |]; apply IH; lia.
Qed.

Lemma matchAll_head r s : head (matchAll r s) = exec r s.
Proof. unfold matchAll. simpl. by destruct (exec r s). Qed.

End Matcher.

(** ** Numbers in a line *)

Section Decimal.

Implicit Types (s u rest tok : jsstring) (p : N -> bool).

Lemma head_bind_ret {A B} (f : A -> list B) (g : A -> B) (l : list A) :
  (forall x, f x = [g x]) -> head (l ≫= f) = g <$> head l.
Proof.
  intros Hf. destruct l as [|x l]; [done|]. by rewrite bind_cons, Hf.
Qed.

(** Two texts that agree up to their first code unit outside a class agree
    on where it is. *)
Lemma split_at_first p xs ys a b r r' :
  all p xs -> all p ys -> p a = false -> p b = false ->
  xs ++ a :: r = ys ++ b :: r' -> xs = ys /\ a = b /\ r = r'.
Proof.
  unfold all. intros Hxs. revert ys.
  induction Hxs as [|x xs Hx _ IH]; intros ys Hys Ha Hb Heq.
  - destruct Hys as [|y ys Hy _]; simpl in Heq.
    + by injection Heq as -> ->.
    + injection Heq as -> _. congruence.
  - destruct Hys as [|y ys Hy Hys]; simpl in Heq.
    + injection Heq as -> _. congruence.
    + injection Heq as -> Heq.
      destruct (IH ys Hys Ha Hb Heq) as (-> & -> & ->). done.
Qed.

Lemma all_app p xs ys : all p (xs ++ ys) <-> all p xs /\ all p ys.
Proof. apply Forall_app. Qed.

Lemma sem_plus p u c : sem (RPlus p) u c <-> (u <> [] /\ all p u) /\ c = [].
Proof.
  unfold RPlus, all. split.
  - intros H. inversion H as [| |? ? u1 u2 c1 c2 H1 H2| | | |]; subst.
    inversion H1; subst. inversion H2; subst.
    split; [split|]; [done | by constructor | done].
  - intros [[Hne Hu] ->]. destruct u as [|a u]; [done|].
    inversion Hu; subst.
    apply (sem_seq (RClass p) (RStar p) [a] u [] []); by constructor.
Qed.

Lemma sem_decimal u c : sem decimalRe u c <-> decimal_literal u /\ c = [].
Proof.
  unfold decimalRe, decimal_literal, digits. split.
  - intros H. inversion H as [| |? ? u1 u2 c1 c2 H1 H2| | | |]; subst.
    apply sem_plus in H1 as [Hip ->].
    inversion H2 as [| | |? ? ? Hf|?| |]; subst.
    + inversion Hf as [| |? ? v1 v2 d1 d2 Hd Hfp| | | |]; subst.
      apply sem_plus in Hfp as [Hfp ->]. inversion Hd as [|? a Ha| | | | |]; subst.
      apply N.eqb_eq in Ha as ->.
      split; [|done]. exists u1. split; [done|]. right. by exists v2.
    + split; [|done]. exists u1. split; [done|]. left. by rewrite app_nil_r.
  - intros [(ip & Hip & [->|(fp & Hfp & ->)]) ->].
    + rewrite <- (app_nil_r ip).
      apply (sem_seq _ _ ip [] [] []); [by apply sem_plus | apply sem_opt_none].
    + apply (sem_seq _ _ ip (46%N :: fp) [] []); [by apply sem_plus|].
      apply sem_opt_some.
      apply (sem_seq _ _ [46%N] fp [] []); [by constructor | by apply sem_plus].
Qed.

Lemma head_run_plus p s :
  head (run (RPlus p) s) =
    match s with
    | c :: s' => if p c then Some ([], drop_while p s') else None
    | [] => None
    end.
Proof.
  unfold RPlus. rewrite run_seq. destruct s as [|c s']; [done|].
  cbn [run]. destruct (p c); [|done].
  rewrite bind_cons, app_nil_r.
  rewrite (head_bind_ret _ (fun '(c2, s2) => ([] ++ c2, s2)))
    by (by intros []).
  by rewrite head_fmap, star_run_head.
Qed.

(** On [decimalRe] the matcher's first alternative is the longest one. *)
Lemma head_run_decimal s :
  head (run decimalRe s) = (fun rest => ([], rest)) <$> scan_decimal s.
Proof.
  unfold decimalRe. rewrite run_seq.
  pose proof (head_run_plus is_digit s) as Hplus.
  destruct s as [|c s'].
  - by destruct (run (RPlus is_digit) []).
  - unfold scan_decimal. destruct (is_digit c).
    2:{ by destruct (run (RPlus is_digit) (c :: s')). }
    set (s1 := drop_while is_digit s') in *.
    rewrite (head_bind_first _ _ _ Hplus).
    2:{ rewrite run_opt, bind_app. by intros [_ ?]%app_eq_nil. }
    rewrite (head_bind_ret _ (fun '(c2, s2) => ([] ++ c2, s2)))
      by (by intros []).
    rewrite run_opt, head_app, run_seq.
    destruct s1 as [|dot s2]; [done|]. cbn [run].
    destruct (is_dot dot); cbn [andb]; [|by destruct s2].
    rewrite bind_cons, app_nil_r.
    rewrite (head_bind_ret _ (fun '(c2, s2) => ([] ++ c2, s2)))
      by (by intros []).
    rewrite head_run_plus.
    destruct s2 as [|d s3]; [done|]. by destruct (is_digit d).
Qed.

Lemma scan_decimal_spec s rest :
  scan_decimal s = Some rest ->
  exists u, s = u ++ rest /\ decimal_literal u /\ whole_number u rest.
Proof.
  destruct s as [|c s']; [done|]. unfold scan_decimal.
  destruct (is_digit c) eqn:Hc; [|done].
  pose proof (take_while_drop_while is_digit s') as Hs'.
  pose proof (take_while_all is_digit s') as Hip.
  pose proof (drop_while_head is_digit s') as Hs1.
  remember (take_while is_digit s') as ip eqn:Eip.
  remember (drop_while is_digit s') as s1 eqn:Es1. clear Eip Es1.
  assert (Hdig : digits (c :: ip)) by (split; [done | by constructor]).
  assert (Hnd : forall e post' a e',
            s1 = e ++ post' -> e = a :: e' -> all is_digit e -> False).
  { intros e post' a e' He1 -> Ha. inversion Ha; subst.
    specialize (Hs1 a (e' ++ post') eq_refl). congruence. }
  intros Hrest.
  destruct s1 as [|dot [|d s3]].
  - injection Hrest as <-. exists (c :: ip).
    split; [by rewrite <- Hs'|]. split; [by exists (c :: ip); auto|].
    intros e post' He _. symmetry in He. by apply app_eq_nil in He as [-> _].
  - injection Hrest as <-. exists (c :: ip).
    split; [by rewrite <- Hs'|]. split; [by exists (c :: ip); auto|].
    intros [|a e'] post' He Hlit; [done|]. exfalso.
    destruct Hlit as (ip' & [_ Hip'] & [Heq|(fp & [Hne Hfp] & Heq)]).
    + rewrite <- Heq in Hip'. apply all_app in Hip' as [_ He'].
      by eapply Hnd.
    + injection He as <- He. destruct e'; [|done].
      assert (is_digit dot = false) by by apply (Hs1 dot []).
      destruct (split_at_first is_digit (c :: ip) ip' dot 46%N [] fp)
        as (_ & _ & <-); try done. by destruct Hdig.
  - destruct (is_dot dot && is_digit d) eqn:Hdd.
    + apply andb_prop in Hdd as [->%N.eqb_eq Hd]. injection Hrest as <-.
      pose proof (take_while_drop_while is_digit s3) as Hs3.
      pose proof (take_while_all is_digit s3) as Hfp.
      pose proof (drop_while_head is_digit s3) as Hr.
      remember (take_while is_digit s3) as fp eqn:Efp.
      remember (drop_while is_digit s3) as rest' eqn:Er. clear Efp Er.
      assert (Hfd : digits (d :: fp)) by (split; [done | by constructor]).
      exists ((c :: ip) ++ 46%N :: d :: fp).
      split; [by rewrite <- Hs', <- Hs3, <- !app_assoc|].
      split; [exists (c :: ip); split; [done|]; right; by exists (d :: fp)|].
      intros [|a e'] post' He Hlit; [done|]. exfalso.
      assert (is_digit a = false) as Ha by by apply (Hr a (e' ++ post')).
      destruct Hlit as (ip' & [_ Hip'] & [Heq|(fp' & [Hne Hfp'] & Heq)]).
      * rewrite <- Heq in Hip'. apply all_app in Hip' as [_ He'].
        inversion He'; congruence.
      * rewrite <- app_assoc in Heq.
        destruct (split_at_first is_digit (c :: ip) ip' 46%N 46%N
                    ((d :: fp) ++ a :: e') fp') as (_ & _ & <-); try done.
        { by destruct Hdig. }
        apply all_app in Hfp' as [_ He']. inversion He'; congruence.
    + injection Hrest as <-. exists (c :: ip).
      split; [by rewrite <- Hs'|]. split; [by exists (c :: ip); auto|].
      intros [|a e'] post' He Hlit; [done|]. exfalso.
      destruct Hlit as (ip' & [_ Hip'] & [Heq|(fp & [Hne Hfp] & Heq)]).
      * rewrite <- Heq in Hip'. apply all_app in Hip' as [_ He'].
        by eapply Hnd.
      * injection He as <- He.
        assert (is_digit dot = false) by by apply (Hs1 dot (d :: s3)).
        destruct (split_at_first is_digit (c :: ip) ip' dot 46%N e' fp)
          as (_ & -> & <-); try done; [by destruct Hdig|].
        destruct e' as [|d' e'']; [done|]. injection He as <- _.
        inversion Hfp; subst. simpl in Hdd. congruence.
Qed.

(** The first numeric substring of a line is determined by the line. *)
Lemma first_numeric_unique l tok tok' :
  first_numeric l tok -> first_numeric l tok' -> tok = tok'.
Proof.
  intros (pre & post & Hl & Hlit & Hwhole & Hmin)
         (pre' & post' & Hl' & Hlit' & Hwhole' & Hmin').
  pose proof (Hmin pre' tok' post' Hl' Hlit').
  pose proof (Hmin' pre tok post Hl Hlit).
  rewrite Hl in Hl'. apply app_inj_1 in Hl' as [_ Heq]; [|lia].
  apply app_eq_inv in Heq as [(e & -> & ->)|(e & -> & ->)].
  - rewrite (Hwhole' e post eq_refl Hlit). by rewrite app_nil_r.
  - rewrite (Hwhole e post' eq_refl Hlit'). by rewrite app_nil_r.
Qed.

Lemma exec_num_Some l m :
  exec numRe l = Some m -> first_numeric l (m_text m) /\ group m 1 = m_text m.
Proof.
  intros (pre & Hl & _ & Hh & Hmin)%exec_Some.
  apply head_run_group in Hh as (c0 & Hh & Hcaps).
  rewrite length_app, Nat.add_sub, take_app_length in Hcaps.
  rewrite head_run_decimal in Hh.
  destruct (scan_decimal (m_text m ++ m_rest m)) as [rest|] eqn:Hscan; [|done].
  injection Hh as <- ->.
  apply scan_decimal_spec in Hscan as (u & Hu & Hlit & Hwhole).
  apply app_inv_tail in Hu as <-.
  split; [|unfold group; by rewrite Hcaps].
  exists pre, (m_rest m). repeat split; try done.
  intros pre' tok' post' Hl' Hlit'.
  destruct (decide (length pre <= length pre')) as [|Hlt]; [done|]. exfalso.
  assert (Hrun : run numRe (tok' ++ post') = []) by (apply (Hmin pre'); [done|lia]).
  apply (run_nil_no_sem _ _ ([] ++ [tok']) _ Hrun).
  by apply sem_group, sem_decimal.
Qed.

Lemma exec_num_None l : exec numRe l = None -> no_numeric l.
Proof.
  intros Hnone pre tok post Hl Hlit.
  assert (Hrun : run numRe (tok ++ post) = []) by by apply (exec_None _ l Hnone pre).
  apply (run_nil_no_sem _ _ ([] ++ [tok]) _ Hrun).
  by apply sem_group, sem_decimal.
Qed.

Lemma extract_value t l :
  value (extract t l) = (fun m => parseFloat (group m 1)) <$> exec numRe l.
Proof. unfold extract. cbn [value]. by rewrite head_fmap, matchAll_head. Qed.

Lemma no_numeric_not_first l tok : no_numeric l -> ~ first_numeric l tok.
Proof. intros Hno (pre & post & Hl & Hlit & _). by apply (Hno pre tok post). Qed.

End Decimal.

(** ** Inline ranges *)

Section Range.

Implicit Types (s u rest a b : jsstring).

Lemma digit_cases c :
  is_digit c = true ->
  c ∈ [48; 49; 50; 51; 52; 53; 54; 55; 56; 57]%N.
Proof.
  unfold is_digit. intros [H1%N.leb_le H2%N.leb_le]%andb_prop.
  rewrite !elem_of_cons. lia.
Qed.

Lemma digit_not_ws c : is_digit c = true -> is_ws c = false.
Proof.
  intros H%digit_cases. rewrite !elem_of_cons, elem_of_nil in H.
  repeat (destruct H as [->|H]; [reflexivity|]). done.
Qed.

Lemma digit_not_dot c : is_digit c = true -> is_dot c = false.
Proof.
  intros H%digit_cases. rewrite !elem_of_cons, elem_of_nil in H.
  repeat (destruct H as [->|H]; [reflexivity|]). done.
Qed.

Lemma dash_cases c : is_dash c = true -> c = 45%N \/ c = 8211%N.
Proof.
  unfold is_dash. intros [H%N.eqb_eq|H%N.eqb_eq]%orb_prop; auto.
Qed.

Lemma ws_not_digit c : is_ws c = true -> is_digit c = false.
Proof.
  intros H. destruct (is_digit c) eqn:Hd; [|done].
  apply digit_not_ws in Hd. congruence.
Qed.

Lemma dot_not_ws c : is_dot c = true -> is_ws c = false.
Proof. by intros ->%N.eqb_eq. Qed.

Lemma ws_not_dot c : is_ws c = true -> is_dot c = false.
Proof.
  intros H. destruct (is_dot c) eqn:Hd; [|done].
  apply dot_not_ws in Hd. congruence.
Qed.

Lemma sep_not_digit c : is_sep c = true -> is_digit c = false.
Proof.
  unfold is_sep. intros [H|[-> | ->]%dash_cases]%orb_prop;
    [by apply ws_not_digit | done | done].
Qed.

Lemma sep_not_dot c : is_sep c = true -> is_dot c = false.
Proof.
  unfold is_sep. intros [H|[-> | ->]%dash_cases]%orb_prop;
    [by apply ws_not_dot | done | done].
Qed.

Lemma dash_not_ws c : is_dash c = true -> is_ws c = false.
Proof. by intros [-> | ->]%dash_cases. Qed.

Lemma sem_star_inv p u c : sem (RStar p) u c -> all p u /\ c = [].
Proof. by inversion 1. Qed.

Lemma sem_class_inv p u c :
  sem (RClass p) u c -> exists x, u = [x] /\ p x = true /\ c = [].
Proof. inversion 1; subst. eauto. Qed.

Lemma sem_num u c : sem numRe u c <-> decimal_literal u /\ c = [u].
Proof.
  unfold numRe. split.
  - intros H. inversion H as [| | | | | |? ? c0 H0]; subst.
    apply sem_decimal in H0 as [Hlit ->]. done.
  - intros [Hlit ->]. apply (sem_group decimalRe u []). by apply sem_decimal.
Qed.

Lemma sem_range a w1 d w2 b :
  decimal_literal a -> all is_ws w1 -> is_dash d = true -> all is_ws w2 ->
  decimal_literal b ->
  sem rangeRe (a ++ w1 ++ d :: w2 ++ b) [a; b].
Proof.
  intros Ha Hw1 Hd Hw2 Hb. unfold rangeRe.
  apply (sem_seq _ _ a _ [a] [b]); [by apply sem_num|].
  apply (sem_seq _ _ w1 _ [] [b]); [by constructor|].
  apply (sem_seq _ _ [d] _ [] [b]); [by constructor|].
  apply (sem_seq _ _ w2 _ [] [b]); [by constructor|].
  by apply sem_num.
Qed.

Lemma range_at_run l pre a b post :
  range_at l pre a b post ->
  exists s', l = pre ++ s' /\ run rangeRe s' <> [].
Proof.
  intros (w1 & d & w2 & -> & Ha & Hw1 & Hd & Hw2 & Hb).
  exists ((a ++ w1 ++ d :: w2 ++ b) ++ post). split.
  - by rewrite <- !app_assoc, <- app_comm_cons, <- !app_assoc.
  - intros Hnil. apply (run_nil_no_sem _ _ [a; b] _ Hnil).
    by apply sem_range.
Qed.

Lemma exec_range_Some l m :
  exec rangeRe l = Some m -> first_range l (group m 1) (group m 2).
Proof.
  intros (pre & Hl & _ & Hh & Hmin)%exec_Some.
  unfold rangeRe in Hh.
  apply head_run_seq in Hh as (c1 & s1 & k1 & H1 & Hh & Hc1).
  apply head_run_seq in Hh as (c2 & s2 & k2 & H2 & Hh & Hc2).
  apply head_run_seq in Hh as (c3 & s3 & k3 & H3 & Hh & Hc3).
  apply head_run_seq in Hh as (c4 & s4 & c5 & H4 & Hh & Hc4).
  apply run_sound in H1 as (a & Hs & [Ha ->]%sem_num).
  apply run_sound in H2 as (w1 & -> & [Hw1 ->]%sem_star_inv).
  apply run_sound in H3 as (? & -> & (d & -> & Hd & ->)%sem_class_inv).
  apply run_sound in H4 as (w2 & -> & [Hw2 ->]%sem_star_inv).
  apply head_run_group in Hh as (c0 & Hh & ->).
  rewrite head_run_decimal in Hh.
  destruct (scan_decimal s4) as [rest|] eqn:Hscan; [|done].
  injection Hh as <- ->.
  apply scan_decimal_spec in Hscan as (b & -> & Hb & Hwhole).
  rewrite length_app, Nat.add_sub, take_app_length in Hc4. subst k1 k2 k3.
  assert (Hg1 : group m 1 = a) by (unfold group; by rewrite Hc1).
  assert (Hg2 : group m 2 = b) by (unfold group; by rewrite Hc1).
  rewrite Hg1, Hg2. exists pre, (m_rest m).
  split; [|split; [done|]].
  - exists w1, d, w2. by rewrite Hl, Hs.
  - intros pre' a' b' post' (s' & Hl' & Hne)%range_at_run.
    destruct (decide (length pre <= length pre')) as [|Hlt]; [done|].
    exfalso. apply Hne, (Hmin pre'); [done | lia].
Qed.

Lemma exec_range_None l : exec rangeRe l = None -> no_range l.
Proof.
  intros Hnone pre a b post (s' & Hl & Hne)%range_at_run.
  by apply Hne, (exec_None _ l Hnone pre).
Qed.

Lemma decimal_literal_cons tok :
  decimal_literal tok -> exists x tok', tok = x :: tok' /\ is_digit x = true.
Proof.
  intros ([|x ip] & [Hne Hip] & Htok); [done|]. inversion Hip; subst.
  destruct Htok as [->|(fp & _ & ->)]; eauto.
Qed.

(** A number followed by a separator ends where the separator starts. *)
Lemma decimal_before_sep a a' x x' r r' :
  decimal_literal a -> decimal_literal a' ->
  is_sep x = true -> is_sep x' = true ->
  a ++ x :: r = a' ++ x' :: r' -> a = a' /\ x :: r = x' :: r'.
Proof.
  intros (ip & [_ Hip] & Ha) (ip' & [_ Hip'] & Ha') Hx Hx' Heq.
  pose proof (sep_not_digit _ Hx) as Hn. pose proof (sep_not_digit _ Hx') as Hn'.
  pose proof (sep_not_dot _ Hx) as Hxd. pose proof (sep_not_dot _ Hx') as Hxd'.
  assert (Hdot : is_digit 46 = false) by done.
  destruct Ha as [->|(fp & [_ Hfp] & ->)], Ha' as [->|(fp' & [_ Hfp'] & ->)].
  - by destruct (split_at_first is_digit _ _ _ _ _ _ Hip Hip' Hn Hn' Heq)
      as (-> & -> & ->).
  - rewrite <- app_assoc, <- app_comm_cons in Heq.
    destruct (split_at_first is_digit _ _ _ _ _ _ Hip Hip' Hn Hdot Heq)
      as (_ & -> & _). done.
  - rewrite <- app_assoc, <- app_comm_cons in Heq.
    destruct (split_at_first is_digit _ _ _ _ _ _ Hip Hip' Hdot Hn' Heq)
      as (_ & <- & _). done.
  - rewrite <- !app_assoc, <- !app_comm_cons in Heq.
    destruct (split_at_first is_digit _ _ _ _ _ _ Hip Hip' Hdot Hdot Heq)
      as (-> & _ & Heq').
    by destruct (split_at_first is_digit _ _ _ _ _ _ Hfp Hfp' Hn Hn' Heq')
      as (-> & -> & ->).
Qed.

Lemma sep_head w d t :
  all is_ws w -> is_dash d = true ->
  exists x r, w ++ d :: t = x :: r /\ is_sep x = true.
Proof.
  intros Hw Hd. unfold is_sep. destruct Hw as [|x w Hx _]; simpl.
  - exists d, t. by rewrite Hd, orb_true_r.
  - exists x, (w ++ d :: t). by rewrite Hx.
Qed.

(** The first occurrence of a range is determined by the line. *)
Lemma first_range_unique l a b a' b' :
  first_range l a b -> first_range l a' b' -> a = a' /\ b = b'.
Proof.
  intros (pre & post & Hat & Hwhole & Hmin) (pre' & post' & Hat' & Hwhole' & Hmin').
  pose proof (Hmin _ _ _ _ Hat'). pose proof (Hmin' _ _ _ _ Hat).
  destruct Hat as (w1 & d & w2 & Hl & Ha & Hw1 & Hd & Hw2 & Hb).
  destruct Hat' as (w1' & d' & w2' & Hl' & Ha' & Hw1' & Hd' & Hw2' & Hb').
  rewrite Hl in Hl'. apply app_inj_1 in Hl' as [_ Heq]; [|lia].
  destruct (sep_head w1 d (w2 ++ b ++ post) Hw1 Hd) as (x & r & Hx & Hsx).
  destruct (sep_head w1' d' (w2' ++ b' ++ post') Hw1' Hd') as (x' & r' & Hx' & Hsx').
  rewrite Hx, Hx' in Heq.
  destruct (decimal_before_sep _ _ _ _ _ _ Ha Ha' Hsx Hsx' Heq) as [<- Heq1].
  split; [done|]. rewrite <- Hx, <- Hx' in Heq1.
  destruct (split_at_first is_ws _ _ _ _ _ _ Hw1 Hw1' (dash_not_ws _ Hd)
              (dash_not_ws _ Hd') Heq1) as (_ & _ & Heq2).
  destruct (decimal_literal_cons _ Hb) as (y & b0 & -> & Hy).
  destruct (decimal_literal_cons _ Hb') as (y' & b0' & -> & Hy').
  rewrite <- !app_comm_cons in Heq2.
  destruct (split_at_first is_ws _ _ _ _ _ _ Hw2 Hw2' (digit_not_ws _ Hy)
              (digit_not_ws _ Hy') Heq2) as (_ & <- & Heq3).
  apply app_eq_inv in Heq3 as [(e & -> & ->)|(e & -> & ->)].
  - assert (e = []) as -> by (by apply (Hwhole' e post)).
    by rewrite app_nil_r.
  - assert (e = []) as -> by (by apply (Hwhole e post')).
    by rewrite app_nil_r.
Qed.

Lemma extract_range t l :
  ref_lower (extract t l) = (fun m => parseFloat (group m 1)) <$> exec rangeRe l /\
  ref_upper (extract t l) = (fun m => parseFloat (group m 2)) <$> exec rangeRe l.
Proof. done. Qed.

Lemma no_range_not_first l a b : no_range l -> ~ first_range l a b.
Proof. intros Hno (pre & post & Hat & _). by apply (Hno pre a b post). Qed.

End Range.

(** C4. The record of a matched line is pushed whether or not the line has
    a number.  Its value is the Number read from the first numeric
    substring of the line, by position in the line and wherever the test
    name stands, and it is null when the line has no numeric substring.
    One of the two cases always applies. *)
Theorem value_is_first_number (t : TestEntry) (l : jsstring) found :
  entry_matches t l = true ->
  loop_names found t l (names t) = found ++ [extract t l] /\
  (forall tok,
     first_numeric l tok -> value (extract t l) = Some (parseFloat tok)) /\
  (no_numeric l -> value (extract t l) = None) /\
  (no_numeric l \/ exists tok, first_numeric l tok).
Proof.
  intros Hm. split; [by apply loop_names_match|].
  rewrite extract_value. destruct (exec numRe l) as [m|] eqn:He.
  - apply exec_num_Some in He as [Hfirst Hg]. cbn [fmap option_fmap option_map].
    rewrite Hg. split; [|split].
    + intros tok Htok. by rewrite (first_numeric_unique _ _ _ Htok Hfirst).
    + intros Hno. by apply no_numeric_not_first in Hfirst.
    + right. by exists (m_text m).
  - apply exec_num_None in He. split; [|split].
    + intros tok Htok. by apply no_numeric_not_first in Htok.
    + done.
    + by left.
Qed.

Lemma value_is_first_number_witness :
  entry_matches hb_entry hb_line = true /\
  loop_names [] hb_entry hb_line (names hb_entry)
    = [] ++ [extract hb_entry hb_line] /\
  value (extract hb_entry hb_line) = Some (js_number "11.2").
Proof.
  assert (H : entry_matches hb_entry hb_line = true) by (vm_compute; reflexivity).
  split; [exact H|].
  split; [exact (proj1 (value_is_first_number hb_entry hb_line [] H))|].
  vm_compute. reflexivity.
Defined.

(** The first number of the line wins even when another one stands next to
    the test name. *)
Example value_not_nearest_the_name :
  value (extract hb_entry (lit "2024 Hemoglobin 11.2")) = Some (js_number "2024").
Proof. by vm_compute. Qed.

(** C5. The record of a matched line carries, as [ref_lower] and
    [ref_upper], the Numbers read from the two numbers of the first
    occurrence in the line of a number, optional white space, a hyphen or an
    en dash, optional white space and a number; both fields are null when
    the line has no such occurrence.  One of the two cases always
    applies. *)
Theorem inline_range_is_first_occurrence (t : TestEntry) (l : jsstring) found :
  entry_matches t l = true ->
  loop_names found t l (names t) = found ++ [extract t l] /\
  (forall a b,
     first_range l a b ->
     ref_lower (extract t l) = Some (parseFloat a) /\
     ref_upper (extract t l) = Some (parseFloat b)) /\
  (no_range l ->
     ref_lower (extract t l) = None /\ ref_upper (extract t l) = None) /\
  (no_range l \/ exists a b, first_range l a b).
Proof.
  intros Hm. split; [by apply loop_names_match|].
  destruct (extract_range t l) as [-> ->].
  destruct (exec rangeRe l) as [m|] eqn:He.
  - apply exec_range_Some in He as Hfirst. cbn [fmap option_fmap option_map].
    split; [|split].
    + intros a b Hab.
      by destruct (first_range_unique _ _ _ _ _ Hab Hfirst) as [-> ->].
    + intros Hno. by apply no_range_not_first in Hfirst.
    + right. by exists (group m 1), (group m 2).
  - apply exec_range_None in He. split; [|split].
    + intros a b Hab. by apply no_range_not_first in Hab.
    + done.
    + by left.
Qed.

Lemma inline_range_is_first_occurrence_witness :
  entry_matches hb_entry hb_line = true /\
  loop_names [] hb_entry hb_line (names hb_entry)
    = [] ++ [extract hb_entry hb_line] /\
  ref_lower (extract hb_entry hb_line) = Some (js_number "13.0") /\
  ref_upper (extract hb_entry hb_line) = Some (js_number "17.0").
Proof.
  assert (H : entry_matches hb_entry hb_line = true) by (vm_compute; reflexivity).
  split; [exact H|].
  split; [exact (proj1 (inline_range_is_first_occurrence hb_entry hb_line [] H))|].
  split; vm_compute; reflexivity.
Defined.

(** An en dash with white space around it separates a range as well. *)
Example range_with_en_dash :
  ref_lower (extract hb_entry en_dash_line) = Some (js_number "13") /\
  ref_upper (extract hb_entry en_dash_line) = Some (js_number "17.5").
Proof. by vm_compute. Qed.

(** ** The test-name pattern *)

Section NamePattern.

Lemma sem_literal_i pat u c :
  sem (literal_i pat) u c <->
  Forall2 (fun x ch => canonicalize x = canonicalize ch) u pat /\ c = [].
Proof.
  revert u c. induction pat as [|ch pat IH]; intros u c; simpl.
  - split.
    + inversion 1; subst. split; [constructor | done].
    + intros [Hu ->]. inversion Hu; subst. constructor.
  - split.
    + intros H. inversion H as [| |? ? u1 u2 c1 c2 H1 H2| | | |]; subst.
      apply sem_class_inv in H1 as (x & -> & Hx%N.eqb_eq & ->).
      apply IH in H2 as [Hu2 ->]. split; [by constructor | done].
    + intros [Hu ->]. inversion Hu as [|x ? u' ? Hx Hu']; subst.
      apply (sem_seq _ _ [x] u' [] []).
      * constructor. by apply N.eqb_eq.
      * by apply IH.
Qed.

Lemma re_test_spec r s :
  re_test r s = true <->
  exists pre u post c, s = pre ++ u ++ post /\ sem r u c.
Proof.
  unfold re_test. rewrite bool_decide_eq_true. split.
  - intros [m Hm]. apply exec_Some in Hm as (pre & Hs & _ & Hh & _).
    apply head_Some_elem_of, run_sound in Hh as (u & Hu & Hsem).
    apply app_inv_tail in Hu as <-.
    by exists pre, (m_text m), (m_rest m), (m_caps m).
  - intros (pre & u & post & c & Hs & Hsem).
    destruct (exec r s) as [m|] eqn:He; [done|]. exfalso.
    by apply (run_nil_no_sem _ _ _ _ (exec_None _ _ He pre (u ++ post) Hs)) in Hsem.
Qed.

(** The literal [/hemoglobin/i] is the pattern its source compiles to. *)
Lemma hemoglobinRe_compiled : compile_i (lit "hemoglobin") = Some hemoglobinRe.
Proof. reflexivity. Qed.

(** [/hemoglobin/i.test(name)] holds exactly when [name] contains the word,
    letter case aside. *)
Lemma is_hemoglobin_spec name :
  is_hemoglobin name = true <-> contains_ci (lit "hemoglobin") name.
Proof.
  unfold is_hemoglobin, hemoglobinRe, contains_ci. rewrite re_test_spec. split.
  - intros (pre & u & post & c & Hs & [Hu _]%sem_literal_i). by exists pre, u, post.
  - intros (pre & u & post & Hs & Hu). exists pre, u, post, [].
    split; [done|]. by apply sem_literal_i.
Qed.

(** Letter case aside: a lower-case ASCII letter stands for itself and for
    its capital. *)
Lemma canonicalize_letter c x :
  (97 <= c <= 122)%N ->
  canonicalize x = canonicalize c <-> x = c \/ x = (c - 32)%N.
Proof.
  intros Hc. unfold canonicalize.
  repeat match goal with
         | |- context [(?a <=? ?b)%N] => destruct (N.leb_spec a b)
         | |- context [(?a =? ?b)%N] => destruct (N.eqb_spec a b)
         end; cbn [andb orb]; lia.
Qed.

End NamePattern.

(** The patterns of the registry are all in the fragment [compile_i]
    accepts. *)
Lemma registry_patterns_compile :
  forallb (fun nm => bool_decide (is_Some (compile_i nm))) (tests ≫= names) = true.
Proof. by vm_compute. Qed.

(** C6. The line of the example parses to the one record the spec gives,
    with value 11.2 and inline range 13.0 to 17.0.  On that record as the
    prediction, with sex M on the item or with no sex at all, the step
    writes prediction "low" and [rule_overridden] true, the inline range
    notwithstanding. *)
Theorem hemoglobin_end_to_end :
  parseExtractedValues (Some hb_line) = [hb_record] /\
  found_sex [with_sex "M" hb_record] = Some (lit "M") /\
  found_sex [hb_record] = None /\
  (applyHemoglobinRule (store_of [hb_record]) [0] [with_sex "M" hb_record]).1
    !! 0 = Some (set_rule_overridden true (set_prediction (lit "low") hb_record)) /\
  (applyHemoglobinRule (store_of [hb_record]) [0] [hb_record]).1
    !! 0 = Some (set_rule_overridden true (set_prediction (lit "low") hb_record)) /\
  lower_bound (lit "M") = js_number "13.0" /\
  upper_bound (lit "M") = js_number "17.5".
Proof. repeat split; by vm_compute. Qed.


(** ** [parseFloat] on the captures *)

Section ParseFloatDomain.

Implicit Types (p : N -> bool) (xs ip fp : jsstring).

Lemma take_drop_while_all p xs :
  all p xs -> take_while p xs = xs /\ drop_while p xs = [].
Proof.
  unfold all. induction 1 as [|x xs Hx _ [IH1 IH2]]; [done|]. simpl.
  by rewrite Hx, IH1, IH2.
Qed.

Lemma take_drop_while_stop p xs c r :
  all p xs -> p c = false ->
  take_while p (xs ++ c :: r) = xs /\ drop_while p (xs ++ c :: r) = c :: r.
Proof.
  unfold all. intros Hxs Hc.
  induction Hxs as [|x xs Hx _ [IH1 IH2]]; simpl.
  - by rewrite Hc.
  - by rewrite Hx, IH1, IH2.
Qed.

Lemma forallb_all p xs : all p xs -> forallb p xs = true.
Proof.
  unfold all. induction 1 as [|x xs Hx _ IH]; [done|]. simpl.
  by rewrite Hx, IH.
Qed.

(** On an integer literal and on a literal with a fraction, [parseFloat]
    rounds the decimal the literal denotes. *)
Lemma parseFloat_integer ip :
  digits ip -> parseFloat ip = of_decimal (digits_val ip) 0.
Proof.
  intros [Hne Hip]. unfold parseFloat.
  destruct (take_drop_while_all _ _ Hip) as [-> ->]. by destruct ip.
Qed.

Lemma parseFloat_fraction ip fp :
  digits ip -> digits fp ->
  parseFloat (ip ++ 46%N :: fp) = of_decimal (digits_val (ip ++ fp)) (length fp).
Proof.
  intros [Hne Hip] [Hnf Hfp]. unfold parseFloat.
  destruct (take_drop_while_stop is_digit ip 46%N fp Hip eq_refl) as [-> ->].
  destruct ip as [|c ip]; [done|].
  rewrite (forallb_all _ _ Hfp), bool_decide_eq_false_2 by done. done.
Qed.

(** Whatever [parseFloat] receives from the two patterns is such a
    literal. *)
Lemma captures_are_decimal_literals l m :
  (exec numRe l = Some m -> decimal_literal (group m 1)) /\
  (exec rangeRe l = Some m ->
   decimal_literal (group m 1) /\ decimal_literal (group m 2)).
Proof.
  split.
  - intros [(pre & post & _ & Hlit & _) ->]%exec_num_Some. done.
  - intros (pre & post & (w1 & d & w2 & _ & Ha & _ & _ & _ & Hb) & _)%exec_range_Some.
    done.
Qed.

End ParseFloatDomain.

(** * Further properties of the code *)


(** * More properties of the parser *)

Section ScannedLines.

Implicit Types (s l : jsstring) (p : N -> bool).

Lemma drop_while_suffix p s : exists u, s = u ++ drop_while p s.
Proof. exists (take_while p s). by rewrite take_while_drop_while. Qed.

Lemma elem_of_drop_while p s c : c ∈ drop_while p s -> c ∈ s.
Proof.
  destruct (drop_while_suffix p s) as [u Hu]. intros Hc.
  rewrite Hu. apply elem_of_app. by right.
Qed.

Lemma elem_of_trim s c : c ∈ trim s -> c ∈ s.
Proof.
  unfold trim. rewrite elem_of_reverse. intros Hc%elem_of_drop_while.
  rewrite elem_of_reverse in Hc. by apply elem_of_drop_while in Hc.
Qed.

Lemma trim_last s c : last (trim s) = Some c -> is_ws c = false.
Proof.
  unfold trim. rewrite last_reverse.
  destruct (drop_while is_ws (reverse (drop_while is_ws s))) as [|a v] eqn:Hv;
    [done|].
  intros [= <-]. by apply (drop_while_head _ _ _ _ Hv).
Qed.

Lemma trim_head s c : head (trim s) = Some c -> is_ws c = false.
Proof.
  unfold trim. rewrite head_reverse.
  destruct (drop_while is_ws s) as [|a u] eqn:Hu; [done|].
  pose proof (drop_while_head _ _ _ _ Hu) as Ha.
  destruct (drop_while_suffix is_ws (reverse (a :: u))) as [w Hw].
  destruct (drop_while is_ws (reverse (a :: u))) as [|b v] eqn:Hv; [done|].
  assert (last (reverse (a :: u)) = Some a) as Hl
    by by rewrite last_reverse.
  rewrite Hw, last_app in Hl.
  intros Hc. rewrite Hc in Hl. by injection Hl as ->.
Qed.

Lemma split_go_no_lf acc insep s piece :
  10%N ∉ acc -> piece ∈ split_go acc insep s -> 10%N ∉ piece.
Proof.
  revert acc insep. induction s as [|c s IH]; intros acc insep Hacc; simpl.
  - intros ->%list_elem_of_singleton. by rewrite elem_of_reverse.
  - destruct (N.eqb_spec c 10) as [->|Hc].
    + destruct insep.
      * apply IH. apply not_elem_of_nil.
      * intros [->|Hin]%elem_of_cons; [by rewrite elem_of_reverse|].
        revert Hin. apply IH. apply not_elem_of_nil.
    + apply IH. intros [?|?]%elem_of_cons; [congruence|done].
Qed.

Lemma replace_nbsp_no_nbsp s : 160%N ∉ replace_nbsp s.
Proof.
  unfold replace_nbsp. intros (c & Hc & _)%list_elem_of_fmap.
  destruct (N.eqb_spec c 160); [done|congruence].
Qed.

Lemma split_go_elem acc insep s piece c :
  piece ∈ split_go acc insep s -> c ∈ piece -> c ∈ acc \/ c ∈ s.
Proof.
  revert acc insep. induction s as [|a s IH]; intros acc insep; simpl.
  - intros ->%list_elem_of_singleton. rewrite elem_of_reverse. by left.
  - destruct (N.eqb_spec a 10) as [->|Ha].
    + destruct insep.
      * intros Hin Hc. destruct (IH _ _ Hin Hc) as [?%elem_of_nil|?]; [done|].
        right. by right.
      * intros [->|Hin]%elem_of_cons Hc.
        -- left. by rewrite elem_of_reverse in Hc.
        -- destruct (IH _ _ Hin Hc) as [?%elem_of_nil|?]; [done|].
           right. by right.
    + intros Hin Hc. destruct (IH _ _ Hin Hc) as [[->|?]%elem_of_cons|?].
      * right. by left.
      * by left.
      * right. by right.
Qed.

End ScannedLines.

(** X1. Every line the parser scans is non-empty, holds no line feed and no
    no-break space, and neither starts nor ends with white space. *)
Theorem scanned_lines_normal (text : option jsstring) (l : jsstring) :
  l ∈ scanned_lines text ->
  l <> [] /\ (10%N ∉ l) /\ (160%N ∉ l) /\
  (forall c, head l = Some c -> is_ws c = false) /\
  (forall c, last l = Some c -> is_ws c = false).
Proof.
  destruct text as [[|c0 text]|]; [by intros ?%elem_of_nil | | by intros ?%elem_of_nil].
  unfold scanned_lines, lines_of.
  intros [Hne (s & -> & Hs)%list_elem_of_fmap]%list_elem_of_filter.
  split; [done|]. split; [|split; [|split]].
  - intros Hc%elem_of_trim. revert Hc.
    by apply (split_go_no_lf [] false _ s (not_elem_of_nil _) Hs).
  - intros Hc%elem_of_trim.
    destruct (split_go_elem _ _ _ _ _ Hs Hc) as [?%elem_of_nil|Hin]; [done|].
    by apply replace_nbsp_no_nbsp in Hin.
  - apply trim_head.
  - apply trim_last.
Qed.

Lemma scanned_lines_normal_witness :
  lit "Hemoglobin 14.0" ∈ scanned_lines (Some two_hb_lines) /\
  lit "Hemoglobin 14.0" <> [].
Proof.
  assert (H : lit "Hemoglobin 14.0" ∈ scanned_lines (Some two_hb_lines))
    by (apply list_elem_of_In; vm_compute; auto).
  split; [exact H|].
  exact (proj1 (scanned_lines_normal (Some two_hb_lines) _ H)).
Defined.

Section OutputRecords.

Implicit Types (text : option jsstring) (r : LabRecord) (l : jsstring).

Lemma found_elem text r :
  r ∈ found_of text <->
  exists t l,
    t ∈ tests /\ l ∈ scanned_lines text /\ entry_matches t l = true /\
    r = extract t l.
Proof.
  unfold found_of. rewrite loop_lines_spec, app_nil_l, list_elem_of_bind.
  split.
  - intros (l & Hr & Hl). rewrite loop_tests_spec, app_nil_l in Hr.
    apply list_elem_of_fmap in Hr as (t & -> & [Hm Ht]%list_elem_of_filter).
    by exists t, l.
  - intros (t & l & Ht & Hl & Hm & ->). exists l. split; [|done].
    rewrite loop_tests_spec, app_nil_l. apply list_elem_of_fmap.
    exists t. split; [done|]. by apply list_elem_of_filter.
Qed.

Lemma output_in_found text r : r ∈ parseExtractedValues text -> r ∈ found_of text.
Proof.
  rewrite parse_unfold, dedup_loop_first.
  intros (i & [Hi _] & _). by apply list_elem_of_lookup_2 in Hi.
Qed.

(** Deduplication loses no key. *)
Lemma output_keys text k :
  k ∈ test <$> parseExtractedValues text <-> k ∈ test <$> found_of text.
Proof.
  rewrite !list_elem_of_fmap. split.
  - intros (r & -> & Hr%output_in_found). by exists r.
  - intros (r & -> & Hr).
    destruct (list_find_elem_of (fun r' => test r' = test r) _ r Hr eq_refl)
      as [[i r'] Hfind].
    apply list_find_Some in Hfind as (Hi & Heq & Hmin).
    exists r'. split; [done|]. rewrite parse_unfold, dedup_loop_first.
    exists i. split; [|apply not_elem_of_empty]. split; [done|].
    intros j r'' Hj Hr''. rewrite Heq. by apply (Hmin j).
Qed.

End OutputRecords.

(** X2. Every record of the output comes from a scanned line and a registry
    entry that matches it: its [test] is the key of the entry, its [line] is
    the line, and it has no [sex], [prediction] or [rule_overridden]. *)
Theorem output_records_origin (text : option jsstring) (r : LabRecord) :
  r ∈ parseExtractedValues text ->
  exists t l,
    t ∈ tests /\ l ∈ scanned_lines text /\ entry_matches t l = true /\
    r = extract t l /\ test r = key t /\ line r = l /\
    sex r = None /\ prediction r = None /\ rule_overridden r = None.
Proof.
  intros (t & l & Ht & Hl & Hm & ->)%output_in_found%found_elem.
  exists t, l. by repeat split.
Qed.

Lemma output_records_origin_witness :
  hb_record ∈ parseExtractedValues (Some hb_line) /\
  exists t l, t ∈ tests /\ hb_record = extract t l.
Proof.
  assert (H : hb_record ∈ parseExtractedValues (Some hb_line))
    by (apply list_elem_of_In; vm_compute; auto).
  split; [exact H|].
  destruct (output_records_origin (Some hb_line) hb_record H)
    as (t & l & Ht & _ & _ & Hr & _).
  by exists t, l.
Defined.

(** X3. The output never has more records than the registry has entries,
    seventeen, however long the text is. *)
Theorem output_length_bound (text : option jsstring) :
  length (parseExtractedValues text) <= 17.
Proof.
  change 17 with (length (key <$> tests)).
  rewrite <- (length_fmap test). apply submseteq_length, NoDup_submseteq.
  - rewrite parse_unfold. apply dedup_loop_NoDup.
  - intros k (r & -> & Hr)%list_elem_of_fmap.
    apply output_in_found, found_elem in Hr as (t & l & Ht & _ & _ & ->).
    apply list_elem_of_fmap. by exists t.
Qed.

Section RegistryPatterns.

Implicit Types (l pat : jsstring) (t : TestEntry).

Lemma re_test_literal_i pat l :
  re_test (literal_i pat) l = true <-> contains_ci pat l.
Proof.
  unfold contains_ci. rewrite re_test_spec. split.
  - intros (pre & u & post & c & Hs & [Hu _]%sem_literal_i). by exists pre, u, post.
  - intros (pre & u & post & Hs & Hu). exists pre, u, post, [].
    split; [done|]. by apply sem_literal_i.
Qed.

Lemma test_i_compiled src r l :
  compile_i src = Some r -> test_i src l = re_test r l.
Proof. unfold test_i. by intros ->. Qed.

(** A text that contains a word contains every part of the word, and letter
    case does not count. *)
Lemma contains_ci_part a b c b' l :
  Forall2 (fun x y => canonicalize x = canonicalize y) b b' ->
  contains_ci (a ++ b ++ c) l -> contains_ci b' l.
Proof.
  intros Hb (pre & w & post & -> & Hw).
  apply Forall2_app_inv_r in Hw as (wa & w' & _ & Hw' & ->).
  apply Forall2_app_inv_r in Hw' as (wb & wc & Hwb & _ & ->).
  exists (pre ++ wa), wb, (wc ++ post). split; [by rewrite <- !app_assoc|].
  clear -Hwb Hb. revert b' Hb.
  induction Hwb as [|x y wb b Hxy _ IH]; intros b' Hb'.
  - inversion Hb'. constructor.
  - inversion Hb' as [|? y' ? b'' Hy Hb'']; subst.
    constructor; [congruence | by apply IH].
Qed.

Lemma contains_ci_prefix k rest l :
  contains_ci (k ++ rest) l -> contains_ci k l.
Proof.
  intros H. apply (contains_ci_part [] k rest k l); [|done].
  by apply Forall_Forall2_diag, Forall_true.
Qed.

Lemma entry_single k l :
  compile_i k = Some (literal_i k) ->
  entry_matches (mkTest k [k]) l = true <-> contains_ci k l.
Proof.
  intros Hk. unfold entry_matches. cbn [names existsb].
  by rewrite orb_false_r, (test_i_compiled _ _ _ Hk), re_test_literal_i.
Qed.

Lemma entry_double k nm rest l :
  compile_i k = Some (literal_i k) ->
  compile_i nm = Some (literal_i (k ++ rest)) ->
  entry_matches (mkTest k [k; nm]) l = true <-> contains_ci k l.
Proof.
  intros Hk Hnm. unfold entry_matches. cbn [names existsb].
  rewrite orb_false_r, (test_i_compiled _ _ _ Hk), (test_i_compiled _ _ _ Hnm).
  rewrite orb_true_iff, !re_test_literal_i. split; [|by left].
  intros [H|H%contains_ci_prefix]; done.
Qed.

(** On the registry, a match is a case-insensitive occurrence of the key. *)
Lemma entry_matches_key t l :
  t ∈ tests -> entry_matches t l = true <-> contains_ci (key t) l.
Proof.
  unfold tests. rewrite !elem_of_cons, elem_of_nil.
  intros [->|[->|H]].
  - by apply (entry_double _ _ (lit " (g/dL)")).
  - by apply (entry_double _ _ (lit " (10^6/" ++ [micro] ++ lit "L)")).
  - repeat (destruct H as [->|H]; [by apply entry_single|]). done.
Qed.

Lemma found_key_iff (text : option jsstring) t :
  t ∈ tests ->
  key t ∈ test <$> parseExtractedValues text <->
  exists l, l ∈ scanned_lines text /\ contains_ci (key t) l.
Proof.
  intros Ht. rewrite output_keys, list_elem_of_fmap. split.
  - intros (r & Hk & (t' & l & Ht' & Hl & Hm & ->)%found_elem).
    exists l. split; [done|]. cbn [test extract] in Hk. rewrite Hk.
    by apply entry_matches_key.
  - intros (l & Hl & Hc). exists (extract t l). split; [done|].
    apply found_elem. exists t, l. repeat split; try done.
    by apply entry_matches_key.
Qed.

End RegistryPatterns.

(** X4. For every entry of the registry, a line is matched exactly when it
    contains the key of the entry, letter case aside: the second surface
    forms of Hemoglobin and RBC match no line that the first does not. *)
Theorem registry_match_is_key_occurrence (t : TestEntry) (l : jsstring) :
  t ∈ tests -> entry_matches t l = true <-> contains_ci (key t) l.
Proof. apply entry_matches_key. Qed.

Lemma registry_match_is_key_occurrence_witness :
  hb_entry ∈ tests /\
  (entry_matches hb_entry hb_line = true <-> contains_ci (key hb_entry) hb_line).
Proof.
  assert (H : hb_entry ∈ tests) by constructor.
  split; [exact H|]. exact (registry_match_is_key_occurrence hb_entry hb_line H).
Defined.

(** X5. Two keys lie inside other keys: whenever the output has a record for
    Fasting Glucose it has one for AST, because "Fasting" holds "ast", and
    whenever it has a record for MCHC it has one for MCH. *)
Theorem overlapping_keys_come_together (text : option jsstring) :
  (lit "Fasting Glucose" ∈ test <$> parseExtractedValues text ->
   lit "AST" ∈ test <$> parseExtractedValues text) /\
  (lit "MCHC" ∈ test <$> parseExtractedValues text ->
   lit "MCH" ∈ test <$> parseExtractedValues text).
Proof.
  assert (Hin : forall k, In (mkTest (lit k) [lit k]) tests ->
                           mkTest (lit k) [lit k] ∈ tests)
    by (intros k; apply list_elem_of_In).
  split.
  - intros (l & Hl & Hc)%(found_key_iff text (mkTest (lit "Fasting Glucose")
                                                [lit "Fasting Glucose"])).
    2:{ apply Hin. vm_compute. tauto. }
    apply (found_key_iff text (mkTest (lit "AST") [lit "AST"])).
    { apply Hin. vm_compute. tauto. }
    exists l. split; [done|].
    apply (contains_ci_part (lit "F") (lit "ast") (lit "ing Glucose")); [|done].
    by repeat constructor.
  - intros (l & Hl & Hc)%(found_key_iff text (mkTest (lit "MCHC") [lit "MCHC"])).
    2:{ apply Hin. vm_compute. tauto. }
    apply (found_key_iff text (mkTest (lit "MCH") [lit "MCH"])).
    { apply Hin. vm_compute. tauto. }
    exists l. split; [done|].
    by apply (contains_ci_prefix (lit "MCH") (lit "C")).
Qed.

Lemma overlapping_keys_come_together_witness :
  test <$> parseExtractedValues (Some (lit "Fasting Glucose 105 mg/dL (70-99)"))
  = [lit "Fasting Glucose"; lit "AST"] /\
  lit "AST" ∈ test <$> parseExtractedValues
                        (Some (lit "Fasting Glucose 105 mg/dL (70-99)")).
Proof.
  assert (H : test <$> parseExtractedValues
                         (Some (lit "Fasting Glucose 105 mg/dL (70-99)"))
              = [lit "Fasting Glucose"; lit "AST"]) by (vm_compute; reflexivity).
  split; [exact H|].
  apply (proj1 (overlapping_keys_come_together _)).
  rewrite H. constructor.
Defined.

Section ValueAndRange.

Implicit Types (l pre a b post tok : jsstring) (t : TestEntry).

Lemma range_at_numeric l pre a b post :
  range_at l pre a b post -> ~ no_numeric l.
Proof.
  intros (w1 & d & w2 & -> & Ha & _) Hno.
  by apply (Hno pre a (w1 ++ d :: w2 ++ b ++ post)).
Qed.

Lemma exec_range_is_Some l pre a b post :
  range_at l pre a b post -> is_Some (exec rangeRe l).
Proof.
  intros Hat. destruct (exec rangeRe l) eqn:He; [done|].
  by apply exec_range_None in He; destruct (He pre a b post).
Qed.

Lemma exec_num_is_Some l : ~ no_numeric l -> is_Some (exec numRe l).
Proof.
  intros Hnum. destruct (exec numRe l) eqn:He; [done|].
  by apply exec_num_None in He.
Qed.

(** A code unit at a place before the end of [pre] is a code unit of
    [pre]. *)
Lemma early_start l pre pre' x r s :
  l = pre' ++ x :: r -> l = pre ++ s -> length pre' < length pre -> x ∈ pre.
Proof.
  intros Hl Hl' Hlt. apply list_elem_of_lookup. exists (length pre').
  assert (l !! length pre' = Some x) as Hx
    by (rewrite Hl; apply list_lookup_middle; done).
  rewrite Hl', lookup_app_l in Hx; done.
Qed.

Lemma decimal_literal_chars tok c :
  decimal_literal tok -> c ∈ tok -> is_digit c = true \/ c = 46%N.
Proof.
  intros (ip & [_ Hip] & [->|(fp & [_ Hfp] & ->)]).
  - intros Hc. left. by apply (proj1 (Forall_forall _ _) Hip).
  - rewrite elem_of_app, elem_of_cons. intros [Hc|[->|Hc]]; [left|by right|left].
    + by apply (proj1 (Forall_forall _ _) Hip).
    + by apply (proj1 (Forall_forall _ _) Hfp).
Qed.

(** Where no digit comes before a range, the range is the first one and its
    lower number is the first number of the line. *)
Lemma range_after_no_digit l pre a b post :
  range_at l pre a b post ->
  Forall (fun c => is_digit c = false) pre ->
  (forall a0 b0, first_range l a0 b0 -> a0 = a) /\
  (forall tok, first_numeric l tok -> tok = a).
Proof.
  intros Hat Hpre.
  assert (Hnd : forall x, x ∈ pre -> is_digit x = true -> False).
  { intros x Hx Hd. rewrite Forall_forall in Hpre. specialize (Hpre x Hx).
    congruence. }
  pose proof Hat as (w1 & d & w2 & Hl & Ha & Hw1 & Hd & Hw2 & Hb).
  destruct (sep_head w1 d (w2 ++ b ++ post) Hw1 Hd) as (x & r & Hx & Hsx).
  split.
  - intros a0 b0 (pre0 & post0 & Hat0 & _ & Hmin).
    pose proof (Hmin _ _ _ _ Hat) as Hle.
    destruct Hat0 as (w1' & d' & w2' & Hl0 & Ha0 & Hw1' & Hd' & Hw2' & _).
    destruct (decimal_literal_cons _ Ha0) as (y & a0' & -> & Hy).
    assert (length pre0 = length pre) as Hlen.
    { destruct (decide (length pre0 < length pre)) as [Hlt|]; [|lia].
      exfalso. apply (Hnd y); [|done].
      eapply early_start; [|exact Hl|exact Hlt].
      rewrite Hl0. by rewrite <- app_comm_cons. }
    rewrite Hl in Hl0. apply app_inj_1 in Hl0 as [_ Heq]; [|done].
    destruct (sep_head w1' d' (w2' ++ b0 ++ post0) Hw1' Hd')
      as (x' & r' & Hx' & Hsx').
    rewrite Hx, Hx' in Heq.
    by destruct (decimal_before_sep _ _ _ _ _ _ Ha Ha0 Hsx Hsx' Heq) as [<- _].
  - intros tok (pre1 & post1 & Hl1 & Htok & Hwhole & Hmin).
    pose proof (Hmin pre a _ Hl Ha) as Hle.
    destruct (decimal_literal_cons _ Htok) as (y & tok' & Etok & Hy).
    assert (length pre1 = length pre) as Hlen.
    { destruct (decide (length pre1 < length pre)) as [Hlt|]; [|lia].
      exfalso. apply (Hnd y); [|done].
      eapply early_start; [|exact Hl|exact Hlt].
      rewrite Hl1, Etok. by rewrite <- app_comm_cons. }
    rewrite Hl in Hl1. apply app_inj_1 in Hl1 as [_ Heq]; [|done].
    rewrite Hx in Heq.
    apply app_eq_inv in Heq as [(e & -> & He)|(e & -> & He)].
    + symmetry. rewrite <- (app_nil_r tok) at 2. f_equal.
      by apply (Hwhole e (x :: r)).
    + destruct e as [|x' e']; [by rewrite app_nil_r|]. exfalso.
      injection He as <- _.
      destruct (decimal_literal_chars _ x Htok) as [Hdx| ->].
      * apply elem_of_app. right. by left.
      * apply sep_not_digit in Hsx. congruence.
      * by apply sep_not_dot in Hsx.
Qed.

End ValueAndRange.

(** X6. On every record of the output, [ref_lower] and [ref_upper] are null
    together, and a record with an inline range has a value. *)
Theorem range_comes_with_value (text : option jsstring) (r : LabRecord) :
  r ∈ parseExtractedValues text ->
  (ref_lower r = None <-> ref_upper r = None) /\
  (is_Some (ref_lower r) -> is_Some (value r)).
Proof.
  intros (t & l & _ & _ & _ & ->)%output_in_found%found_elem.
  destruct (extract_range t l) as [-> ->]. rewrite extract_value.
  destruct (exec rangeRe l) as [m|] eqn:He; cbn [fmap option_fmap option_map].
  - split; [done|]. intros _.
    apply exec_range_Some in He as (pre & post & Hat & _).
    apply range_at_numeric, exec_num_is_Some in Hat as [m' ->]. done.
  - split; [done|]. by intros [? ?].
Qed.

Lemma range_comes_with_value_witness :
  hb_record ∈ parseExtractedValues (Some hb_line) /\
  (is_Some (ref_lower hb_record) -> is_Some (value hb_record)).
Proof.
  assert (H : hb_record ∈ parseExtractedValues (Some hb_line))
    by (apply list_elem_of_In; vm_compute; auto).
  split; [exact H|].
  exact (proj2 (range_comes_with_value (Some hb_line) hb_record H)).
Defined.

(** X7. When no digit comes before the first inline range of a matched
    line, the value of the record is the lower number of the range: the
    first number wins also when it belongs to the range. *)
Theorem value_is_range_start (t : TestEntry) (l pre a b post : jsstring) :
  range_at l pre a b post ->
  Forall (fun c => is_digit c = false) pre ->
  value (extract t l) = Some (parseFloat a) /\
  ref_lower (extract t l) = Some (parseFloat a).
Proof.
  intros Hat Hpre.
  destruct (range_after_no_digit _ _ _ _ _ Hat Hpre) as [Hrange Hnum].
  destruct (extract_range t l) as [-> _]. rewrite extract_value.
  destruct (exec_num_is_Some l (range_at_numeric _ _ _ _ _ Hat)) as [m Hm].
  destruct (exec_range_is_Some _ _ _ _ _ Hat) as [m' Hm'].
  rewrite Hm, Hm'. cbn [fmap option_fmap option_map].
  apply exec_num_Some in Hm as [Hfirst ->].
  apply exec_range_Some in Hm'.
  by rewrite (Hnum _ Hfirst), (Hrange _ _ Hm').
Qed.

Lemma value_is_range_start_witness :
  (range_at range_first_line (lit "Fasting Glucose (") (lit "70") (lit "99")
            (lit ") 105") /\
   Forall (fun c => is_digit c = false) (lit "Fasting Glucose (")) /\
  value (extract hb_entry range_first_line) = Some (js_number "70").
Proof.
  assert (H1 : range_at range_first_line (lit "Fasting Glucose (") (lit "70")
                        (lit "99") (lit ") 105")).
  { exists [], 45%N, []. split; [reflexivity|].
    split; [exists (lit "70"); split; [split; [done|by repeat constructor]|by left]|].
    split; [constructor|]. split; [reflexivity|]. split; [constructor|].
    exists (lit "99"). split; [split; [done|by repeat constructor]|by left]. }
  assert (H2 : Forall (fun c => is_digit c = false) (lit "Fasting Glucose ("))
    by (by repeat constructor).
  split; [by split|].
  exact (proj1 (value_is_range_start hb_entry _ _ _ _ _ H1 H2)).
Defined.

Section NumbersEmitted.

Lemma shr_1_nonneg mrs : (0 <= shr_m mrs)%Z -> (0 <= shr_m (shr_1 mrs))%Z.
Proof. destruct mrs as [[|[p|p|]|p] r s]; simpl; lia. Qed.

Lemma iter_pos_shr_nonneg n mrs :
  (0 <= shr_m mrs)%Z -> (0 <= shr_m (SpecFloat.iter_pos shr_1 n mrs))%Z.
Proof.
  revert mrs. induction n as [n IH|n IH|]; intros mrs H; simpl.
  - by apply IH, IH, shr_1_nonneg.
  - by apply IH, IH.
  - by apply shr_1_nonneg.
Qed.

Lemma shr_fexp_nonneg m e l :
  (0 <= m)%Z -> (0 <= shr_m (fst (shr_fexp prec emax m e l)))%Z.
Proof.
  intros Hm. unfold shr_fexp, shr.
  assert (0 <= shr_m (shr_record_of_loc m l))%Z by (by destruct l as [|[]]).
  destruct (_ - e)%Z; simpl; [done| |done]. by apply iter_pos_shr_nonneg.
Qed.

Lemma round_nearest_even_nonneg m l :
  (0 <= m)%Z -> (0 <= round_nearest_even m l)%Z.
Proof.
  intros Hm. destruct l as [|[]]; simpl; [done| |done|lia].
  destruct (Z.even m); lia.
Qed.

Lemma binary_round_aux_nonneg m e l :
  (0 <= m)%Z -> nonneg_number (binary_round_aux prec emax false m e l).
Proof.
  intros Hm. unfold binary_round_aux.
  pose proof (shr_fexp_nonneg m e l Hm) as H1.
  destruct (shr_fexp prec emax m e l) as [mrs' e']. cbn [fst] in H1.
  pose proof (shr_fexp_nonneg _ e' loc_Exact
                (round_nearest_even_nonneg _ (loc_of_shr_record mrs') H1)) as H2.
  destruct (shr_fexp prec emax _ e' loc_Exact) as [mrs'' e'']. cbn [fst] in H2.
  destruct (shr_m mrs'') as [|p|p]; [done| |lia].
  by destruct (e'' <=? emax - prec)%Z.
Qed.

(** The Number read from a decimal is never NaN and never negative. *)
Lemma of_decimal_nonneg n k : nonneg_number (of_decimal n k).
Proof.
  unfold of_decimal. destruct n as [|p|p]; [done| |done].
  unfold SFdiv, SFdiv_core_binary.
  set (s := (0 - 0 - _)%Z).
  set (m' := match s with Z.pos _ => Z.shiftl (Z.pos p) s | 0%Z => Z.pos p
                     | Z.neg _ => 0%Z end).
  assert (0 <= m')%Z as Hm'.
  { subst m'. destruct s; [done| |done]. by apply Z.shiftl_nonneg. }
  pose proof (Z.div_pos m' (Z.pos (Z.to_pos (10 ^ Z.of_nat k))) Hm' eq_refl) as Hq.
  unfold Z.div in Hq. destruct (Z.div_eucl m' _) as [q r]. cbn [fst] in Hq.
  by apply binary_round_aux_nonneg.
Qed.

Lemma parseFloat_nonneg tok :
  decimal_literal tok -> nonneg_number (parseFloat tok).
Proof.
  intros (ip & Hip & [->|(fp & Hfp & ->)]).
  - rewrite parseFloat_integer by done. apply of_decimal_nonneg.
  - rewrite parseFloat_fraction by done. apply of_decimal_nonneg.
Qed.

End NumbersEmitted.

(** X8. The numbers of a record of the output are never NaN and never
    negative: [value], [ref_lower] and [ref_upper] are each null, +0, a
    positive finite Number or +Infinity.  A sign before a number of the
    report is not read. *)
Theorem output_numbers_nonnegative (text : option jsstring) (r : LabRecord)
    (x : number) :
  r ∈ parseExtractedValues text ->
  value r = Some x \/ ref_lower r = Some x \/ ref_upper r = Some x ->
  nonneg_number x.
Proof.
  intros (t & l & _ & _ & _ & ->)%output_in_found%found_elem.
  destruct (extract_range t l) as [-> ->]. rewrite extract_value.
  intros [H|[H|H]].
  - destruct (exec numRe l) as [m|] eqn:He; [|done]. injection H as <-.
    by apply parseFloat_nonneg, (proj1 (captures_are_decimal_literals l m)).
  - destruct (exec rangeRe l) as [m|] eqn:He; [|done]. injection H as <-.
    by apply parseFloat_nonneg, (proj2 (captures_are_decimal_literals l m)).
  - destruct (exec rangeRe l) as [m|] eqn:He; [|done]. injection H as <-.
    by apply parseFloat_nonneg, (proj2 (captures_are_decimal_literals l m)).
Qed.

Lemma output_numbers_nonnegative_witness :
  (hb_record ∈ parseExtractedValues (Some hb_line) /\
   value hb_record = Some (js_number "11.2")) /\
  nonneg_number (js_number "11.2").
Proof.
  assert (H : hb_record ∈ parseExtractedValues (Some hb_line))
    by (apply list_elem_of_In; vm_compute; auto).
  assert (H' : value hb_record = Some (js_number "11.2")) by reflexivity.
  split; [by split|].
  exact (output_numbers_nonnegative (Some hb_line) hb_record _ H (or_introl H')).
Defined.

(** The sign of a negative number is dropped. *)
Example minus_sign_is_not_read :
  value (extract hb_entry (lit "Hemoglobin -5.5")) = Some (js_number "5.5").
Proof. by vm_compute. Qed.

(** * More properties of the override step *)

Section OverrideMore.

Implicit Types (h : store) (preds : list loc) (items : list LabRecord).
Implicit Types (o x : LabRecord) (p q : loc).

Lemma override_ext items items' o :
  item_sex items = item_sex items' -> override items o = override items' o.
Proof. unfold override. by intros ->. Qed.

Lemma array_map_ext items items' h preds :
  item_sex items = item_sex items' ->
  array_map items h preds = array_map items' h preds.
Proof.
  intros Hs. revert h. induction preds as [|p preds IH]; intros h; [done|].
  cbn [array_map]. unfold callback.
  destruct (h !! p) as [o|]; [|by rewrite IH].
  destruct (is_hemoglobin (test o)); [|by rewrite IH].
  by rewrite (override_ext _ _ _ Hs), IH.
Qed.

Lemma found_sex_first pre x post :
  Forall (fun y => is_hemoglobin (test y) = false) pre ->
  is_hemoglobin (test x) = true ->
  found_sex (pre ++ x :: post) = sex x.
Proof.
  unfold found_sex. intros Hpre Hx.
  induction Hpre as [|y pre Hy _ IH]; simpl.
  - by rewrite Hx.
  - by rewrite Hy.
Qed.

Lemma non_F_bounds sx :
  sx <> lit "F" ->
  lower_bound sx = js_number "13.0" /\ upper_bound sx = js_number "17.5".
Proof. intros H. unfold lower_bound, upper_bound. by rewrite !decide_False. Qed.

End OverrideMore.

(** X9. Running the step again on its own result changes nothing: neither
    the records nor the returned array. *)
Theorem override_step_idempotent (h : store) preds items :
  applyHemoglobinRule (applyHemoglobinRule h preds items).1
                      (applyHemoglobinRule h preds items).2 items
  = applyHemoglobinRule h preds items.
Proof.
  unfold applyHemoglobinRule.
  rewrite (surjective_pairing (array_map items (array_map items h preds).1 _)).
  rewrite (surjective_pairing (array_map items h preds)) at 5.
  rewrite !array_map_refs. f_equal.
  apply map_eq. intros q. rewrite !array_map_lookup.
  destruct (h !! q) as [o|]; [|done].
  destruct (bool_decide (q ∈ preds)); cbn [andb]; [|done].
  destruct (is_hemoglobin (test o)) eqn:Hh; [|by rewrite Hh].
  by rewrite override_test, Hh, override_idemp.
Qed.

(** X10. The records after the step depend on which references the array
    holds, not on their order or on how often each one occurs. *)
Theorem override_step_order_free (h : store) preds preds' items :
  (forall q, q ∈ preds <-> q ∈ preds') ->
  (applyHemoglobinRule h preds items).1 = (applyHemoglobinRule h preds' items).1.
Proof.
  intros Hsame. unfold applyHemoglobinRule. apply map_eq. intros q.
  rewrite !array_map_lookup. destruct (h !! q) as [o|]; [|done].
  by rewrite (bool_decide_ext _ _ (Hsame q)).
Qed.

Lemma override_step_order_free_witness :
  (forall q : loc, q ∈ [0; 1] <-> q ∈ [1; 0; 1]) /\
  (applyHemoglobinRule (store_of [wbc_pred; hbM]) [0; 1] []).1
  = (applyHemoglobinRule (store_of [wbc_pred; hbM]) [1; 0; 1] []).1.
Proof.
  assert (H : forall q : loc, q ∈ [0; 1] <-> q ∈ [1; 0; 1]).
  { intros q. rewrite !elem_of_cons, elem_of_nil. tauto. }
  split; [exact H|].
  exact (override_step_order_free (store_of [wbc_pred; hbM]) _ _ [] H).
Defined.

(** X11. The items reach the step only through the first item whose name
    matches [/hemoglobin/i]: the items before it and after it can be
    anything. *)
Theorem only_first_hemoglobin_item_counts (h : store) preds pre x post :
  Forall (fun y => is_hemoglobin (test y) = false) pre ->
  is_hemoglobin (test x) = true ->
  applyHemoglobinRule h preds (pre ++ x :: post)
  = applyHemoglobinRule h preds [x].
Proof.
  intros Hpre Hx. unfold applyHemoglobinRule. apply array_map_ext.
  unfold item_sex.
  pose proof (found_sex_first [] x [] (Forall_nil_2 _) Hx) as H0.
  rewrite app_nil_l in H0.
  by rewrite (found_sex_first pre x post Hpre Hx), H0.
Qed.

Lemma only_first_hemoglobin_item_counts_witness :
  (Forall (fun y => is_hemoglobin (test y) = false) [wbc_pred] /\
   is_hemoglobin (test hbF) = true) /\
  applyHemoglobinRule (store_of [hb_record]) [0] ([wbc_pred] ++ hbF :: [hbM])
  = applyHemoglobinRule (store_of [hb_record]) [0] [hbF].
Proof.
  assert (H1 : Forall (fun y => is_hemoglobin (test y) = false) [wbc_pred])
    by (repeat constructor; vm_compute; reflexivity).
  assert (H2 : is_hemoglobin (test hbF) = true) by (vm_compute; reflexivity).
  split; [by split|].
  exact (only_first_hemoglobin_item_counts _ [0] [wbc_pred] hbF [hbM] H1 H2).
Defined.

(** X12. The sex is compared with "F" exactly: with any other non-empty
    [sex] on the item, a lower-case "f" included, a matching record is
    classified with the bounds 13.0 and 17.5. *)
Theorem other_sex_gets_default_bounds (h : store) preds items p o c s :
  p ∈ preds -> h !! p = Some o -> is_hemoglobin (test o) = true ->
  found_sex items = Some (c :: s) -> c :: s <> lit "F" ->
  exists o',
    (applyHemoglobinRule h preds items).1 !! p = Some o' /\
    prediction o' =
      Some (if js_lt (value o) (js_number "13.0") then lit "low"
            else if js_gt (value o) (js_number "17.5") then lit "high"
            else lit "normal").
Proof.
  intros Hin Hp Hh Hs HF. exists (override items o).
  unfold applyHemoglobinRule. rewrite array_map_lookup, Hp, Hh.
  rewrite bool_decide_eq_true_2 by done. split; [done|].
  rewrite override_prediction.
  assert (item_sex items = c :: s) as -> by (unfold item_sex; by rewrite Hs).
  by destruct (non_F_bounds _ HF) as [-> ->].
Qed.

Lemma other_sex_gets_default_bounds_witness :
  (0 ∈ [0] /\ store_of [hb_125] !! 0 = Some hb_125 /\
   is_hemoglobin (test hb_125) = true /\
   found_sex [with_sex "f" hb_125] = Some (lit "f") /\ lit "f" <> lit "F") /\
  exists o',
    (applyHemoglobinRule (store_of [hb_125]) [0] [with_sex "f" hb_125]).1 !! 0
    = Some o' /\ prediction o' = Some (lit "low").
Proof.
  assert (H1 : 0 ∈ [0]) by constructor.
  assert (H2 : store_of [hb_125] !! 0 = Some hb_125) by reflexivity.
  assert (H3 : is_hemoglobin (test hb_125) = true) by (vm_compute; reflexivity).
  assert (H4 : found_sex [with_sex "f" hb_125] = Some (lit "f"))
    by (vm_compute; reflexivity).
  assert (H5 : lit "f" <> lit "F") by (by vm_compute).
  split; [by repeat split|].
  destruct (other_sex_gets_default_bounds (store_of [hb_125]) [0]
              [with_sex "f" hb_125] 0 hb_125 _ _ H1 H2 H3 H4 H5)
    as (o' & Ho & Hpred).
  exists o'. split; [exact Ho|]. rewrite Hpred. vm_compute. reflexivity.
Defined.

(** X13. The bounds belong to the normal range: a matching record whose
    value is the lower or the upper bound of its sex is classified
    "normal". *)
Theorem bounds_are_normal (h : store) preds items p o :
  p ∈ preds -> h !! p = Some o -> is_hemoglobin (test o) = true ->
  value o = Some (lower_bound (item_sex items)) \/
  value o = Some (upper_bound (item_sex items)) ->
  exists o',
    (applyHemoglobinRule h preds items).1 !! p = Some o' /\
    prediction o' = Some (lit "normal").
Proof.
  intros Hin Hp Hh Hv. exists (override items o).
  unfold applyHemoglobinRule. rewrite array_map_lookup, Hp, Hh.
  rewrite bool_decide_eq_true_2 by done. split; [done|].
  rewrite override_prediction. unfold lower_bound, upper_bound in *.
  destruct (decide (item_sex items = lit "F")); destruct Hv as [-> | ->];
    by vm_compute.
Qed.

Lemma bounds_are_normal_witness :
  (0 ∈ [0] /\ store_of [hb_13] !! 0 = Some hb_13 /\
   is_hemoglobin (test hb_13) = true /\
   value hb_13 = Some (lower_bound (item_sex []))) /\
  exists o',
    (applyHemoglobinRule (store_of [hb_13]) [0] []).1 !! 0 = Some o' /\
    prediction o' = Some (lit "normal").
Proof.
  assert (H1 : 0 ∈ [0]) by constructor.
  assert (H2 : store_of [hb_13] !! 0 = Some hb_13) by reflexivity.
  assert (H3 : is_hemoglobin (test hb_13) = true) by (vm_compute; reflexivity).
  assert (H4 : value hb_13 = Some (lower_bound (item_sex [])))
    by (vm_compute; reflexivity).
  split; [by repeat split|].
  exact (bounds_are_normal (store_of [hb_13]) [0] [] 0 hb_13 H1 H2 H3
           (or_introl H4)).
Defined.

(** * Helpers of the other routes and of the client *)

Section Strip.

Implicit Types (p : N -> bool) (s u : jsstring).

(** Dropping the run in [p] at either end of [s], as [trim] does for white
    space. *)
Lemma strip_head p s c :
  head (reverse (drop_while p (reverse (drop_while p s)))) = Some c ->
  p c = false.
Proof.
  rewrite head_reverse.
  destruct (drop_while p s) as [|a u] eqn:Hu; [done|].
  pose proof (drop_while_head _ _ _ _ Hu) as Ha.
  destruct (drop_while_suffix p (reverse (a :: u))) as [w Hw].
  destruct (drop_while p (reverse (a :: u))) as [|b v] eqn:Hv; [done|].
  assert (last (reverse (a :: u)) = Some a) as Hl by by rewrite last_reverse.
  rewrite Hw, last_app in Hl.
  intros Hc. rewrite Hc in Hl. by injection Hl as ->.
Qed.

Lemma strip_last p s c :
  last (reverse (drop_while p (reverse (drop_while p s)))) = Some c ->
  p c = false.
Proof.
  rewrite last_reverse.
  destruct (drop_while p (reverse (drop_while p s))) as [|a v] eqn:Hv; [done|].
  intros [= <-]. by apply (drop_while_head _ _ _ _ Hv).
Qed.

Lemma strip_infix p s :
  exists pre post,
    s = pre ++ reverse (drop_while p (reverse (drop_while p s))) ++ post.
Proof.
  destruct (drop_while_suffix p s) as [pre Hpre].
  destruct (drop_while_suffix p (reverse (drop_while p s))) as [w Hw].
  exists pre, (reverse w). rewrite <- reverse_app, <- Hw, reverse_involutive.
  exact Hpre.
Qed.

Lemma drop_while_stop p u s :
  all p u -> (forall c, head s = Some c -> p c = false) ->
  drop_while p (u ++ s) = s.
Proof.
  intros Hu Hs. destruct s as [|c s].
  - rewrite app_nil_r. by apply take_drop_while_all.
  - by apply take_drop_while_stop; [|apply Hs].
Qed.

Lemma all_reverse p u : all p u -> all p (reverse u).
Proof. unfold all. by rewrite Forall_reverse. Qed.

(** A text with clean ends inside two runs in [p] is what is left. *)
Lemma strip_wrapped p u1 s u2 :
  all p u1 -> all p u2 ->
  (forall c, head s = Some c -> p c = false) ->
  (forall c, last s = Some c -> p c = false) ->
  reverse (drop_while p (reverse (drop_while p (u1 ++ s ++ u2)))) = s.
Proof.
  intros H1 H2 Hh Hl. destruct s as [|a s'].
  - rewrite app_nil_l.
    destruct (take_drop_while_all p (u1 ++ u2)) as [_ ->]; [|done].
    by apply Forall_app.
  - rewrite (drop_while_stop p u1) by done.
    rewrite reverse_app, (drop_while_stop p (reverse u2)).
    + apply reverse_involutive.
    + by apply all_reverse.
    + intros c. rewrite head_reverse. apply Hl.
Qed.

End Strip.

(** X14. The result of [sanitizePath] is a piece of the candidate that
    neither starts nor ends with a quote; a null or empty candidate gives
    the empty string. *)
Theorem sanitizePath_clean (candidate : option jsstring) :
  (forall c, head (sanitizePath candidate) = Some c -> is_quote c = false) /\
  (forall c, last (sanitizePath candidate) = Some c -> is_quote c = false) /\
  (forall s, candidate = Some s ->
             exists pre post, s = pre ++ sanitizePath candidate ++ post) /\
  sanitizePath None = [] /\ sanitizePath (Some []) = [].
Proof.
  split; [|split; [|split; [|done]]].
  - destruct candidate as [[|a s]|]; [done| |done]. cbn [sanitizePath].
    destruct (trim (a :: s)); [done|]. apply strip_head.
  - destruct candidate as [[|a s]|]; [done| |done]. cbn [sanitizePath].
    destruct (trim (a :: s)); [done|]. apply strip_last.
  - intros s [= ->]. destruct s as [|a s]; [by exists [], []|].
    cbn [sanitizePath]. destruct (strip_infix is_ws (a :: s)) as (pre & post & Hs).
    fold (trim (a :: s)) in Hs.
    destruct (trim (a :: s)) as [|b t] eqn:Ht; [by exists [], (a :: s)|].
    destruct (strip_infix is_quote (b :: t)) as (pre' & post' & Ht').
    exists (pre ++ pre'), (post' ++ post).
    rewrite Hs at 1. rewrite Ht' at 1. by rewrite <- !app_assoc.
Qed.

Lemma sanitizePath_clean_witness :
  sanitizePath (Some (lit " 'py' ")) = lit "py" /\
  exists pre post,
    lit " 'py' " = pre ++ sanitizePath (Some (lit " 'py' ")) ++ post.
Proof.
  split; [reflexivity|].
  exact (proj1 (proj2 (proj2 (sanitizePath_clean (Some (lit " 'py' ")))))
           (lit " 'py' ") eq_refl).
Defined.

(** X15. Quoting a path and padding it with white space is undone by
    [sanitizePath]: a path whose ends are neither white space nor quotes
    comes back as it was. *)
Theorem sanitizePath_unwraps (ws1 q1 path q2 ws2 : jsstring) :
  all is_ws ws1 -> all is_ws ws2 -> all is_quote q1 -> all is_quote q2 ->
  path <> [] ->
  (forall c, head path = Some c \/ last path = Some c ->
             is_ws c = false /\ is_quote c = false) ->
  sanitizePath (Some (ws1 ++ q1 ++ path ++ q2 ++ ws2)) = path.
Proof.
  intros Hw1 Hw2 Hq1 Hq2 Hne Hends.
  assert (Hqw : forall c, is_quote c = true -> is_ws c = false).
  { intros c [->%N.eqb_eq| ->%N.eqb_eq]%orb_prop; reflexivity. }
  set (mid := q1 ++ path ++ q2).
  assert (Hmid : mid <> []).
  { subst mid. intros [_ [? _]%app_eq_nil]%app_eq_nil. done. }
  assert (Hmh : forall c, head mid = Some c -> is_ws c = false).
  { subst mid. intros c. destruct Hq1 as [|x q1' Hx _]; simpl.
    - destruct path as [|y path']; [done|]. simpl. intros [= <-].
      apply (Hends y). by left.
    - intros [= <-]. by apply Hqw. }
  assert (Hml : forall c, last mid = Some c -> is_ws c = false).
  { subst mid. intros c. rewrite app_assoc, last_app.
    destruct (last q2) as [y|] eqn:Hy.
    - intros [= <-]. apply Hqw.
      apply last_Some_elem_of in Hy. unfold all in Hq2.
      rewrite Forall_forall in Hq2. by apply Hq2.
    - rewrite last_app. destruct (last path) as [z|] eqn:Hz.
      + intros [= <-]. apply (Hends z). by right.
      + by apply last_None in Hz. }
  assert (Htrim : trim (ws1 ++ q1 ++ path ++ q2 ++ ws2) = mid).
  { unfold trim.
    replace (ws1 ++ q1 ++ path ++ q2 ++ ws2) with (ws1 ++ mid ++ ws2)
      by (subst mid; by rewrite <- !app_assoc).
    by apply strip_wrapped. }
  unfold sanitizePath.
  destruct (ws1 ++ q1 ++ path ++ q2 ++ ws2) as [|a s] eqn:Es.
  { exfalso. apply Hmid. subst mid.
    apply app_eq_nil in Es as [_ Es]. rewrite !app_assoc in Es.
    apply app_eq_nil in Es as [Es _]. by rewrite <- app_assoc in Es. }
  rewrite Htrim. destruct mid as [|b t] eqn:Em; [done|]. rewrite <- Em.
  subst mid. rewrite Em. rewrite <- Em. apply strip_wrapped; try done.
  - intros c Hc. apply (Hends c). by left.
  - intros c Hc. apply (Hends c). by right.
Qed.

Lemma sanitizePath_unwraps_witness :
  sanitizePath (Some (lit "  '/usr/bin/python3'" ++ [34; 32]%N))
  = lit "/usr/bin/python3".
Proof.
  apply (sanitizePath_unwraps (lit "  ") (lit "'") (lit "/usr/bin/python3")
           (lit "'" ++ [34%N]) [32%N]).
  - by repeat constructor.
  - by repeat constructor.
  - by repeat constructor.
  - by repeat constructor.
  - done.
  - intros c [[= <-]|H]; [done|]. vm_compute in H. by injection H as <-.
Defined.



Section Split.

Implicit Types (acc u s : jsstring).

Lemma split_on_no_sep sep acc u :
  sep ∉ u -> split_on sep acc u = [reverse acc ++ u].
Proof.
  revert acc. induction u as [|c u IH]; intros acc Hu; simpl.
  - by rewrite app_nil_r.
  - destruct (N.eqb_spec c sep) as [->|Hc].
    + exfalso. apply Hu. by left.
    + rewrite IH, reverse_cons, <- app_assoc; [done|].
      intros ?. apply Hu. by right.
Qed.

Lemma split_on_first sep acc u rest :
  sep ∉ u ->
  split_on sep acc (u ++ sep :: rest) = (reverse acc ++ u) :: split_on sep [] rest.
Proof.
  revert acc. induction u as [|c u IH]; intros acc Hu; simpl.
  - by rewrite N.eqb_refl, app_nil_r.
  - destruct (N.eqb_spec c sep) as [->|Hc].
    + exfalso. apply Hu. by left.
    + rewrite IH, reverse_cons, <- app_assoc; [done|].
      intros ?. apply Hu. by right.
Qed.

End Split.

(** X17. The middleware reads the second piece of the header and nothing
    else: whatever word stands before the first space, [Bearer] or not or
    none, a non-empty second piece goes to [jwt.verify], and the request goes
    on exactly when that accepts it. *)
Theorem verifyToken_ignores_scheme {ID} (verify : jsstring -> option ID)
    (scheme token rest : jsstring) :
  (32%N ∉ scheme) -> (32%N ∉ token) -> token <> [] ->
  rest = [] \/ head rest = Some 32%N ->
  verifyToken verify (Some (scheme ++ 32%N :: token ++ rest)) =
    match verify token with
    | Some id => Next id
    | None => Denied 401 (lit "Token is not valid")
    end.
Proof.
  intros Hs Ht Hne Hrest. unfold verifyToken, header_token.
  destruct (scheme ++ 32%N :: token ++ rest) as [|a hs] eqn:Eh.
  { by destruct scheme. }
  rewrite <- Eh, (split_on_first 32 [] scheme) by done.
  assert (split_on 32 [] (token ++ rest) !! 0 = Some token) as Htok.
  { destruct Hrest as [->|Hr].
    - rewrite app_nil_r, split_on_no_sep by done. done.
    - destruct rest as [|c rest']; [done|]. injection Hr as ->.
      by rewrite (split_on_first 32 [] token). }
  change (((reverse [] ++ scheme) :: split_on 32 [] (token ++ rest)) !! 1)
    with (split_on 32 [] (token ++ rest) !! 0).
  rewrite Htok. by destruct token.
Qed.

Lemma verifyToken_ignores_scheme_witness :
  ((32%N ∉ lit "Basic") /\ (32%N ∉ lit "abc") /\ lit "abc" <> [] /\
   (@nil N = [] \/ head (@nil N) = Some 32%N)) /\
  verifyToken (fun _ => Some 7) (Some (lit "Basic abc")) = Next 7.
Proof.
  assert (H1 : 32%N ∉ lit "Basic")
    by (rewrite list_elem_of_In; vm_compute; intuition discriminate).
  assert (H2 : 32%N ∉ lit "abc")
    by (rewrite list_elem_of_In; vm_compute; intuition discriminate).
  assert (H3 : lit "abc" <> []) by done.
  assert (H4 : @nil N = [] \/ head (@nil N) = Some 32%N) by (by left).
  split; [by repeat split|].
  exact (verifyToken_ignores_scheme (fun _ => Some 7) _ _ [] H1 H2 H3 H4).
Defined.

(** X18. A header without a space, and a header with two spaces after its
    first word, are answered 401 "No token, authorization denied", and
    [jwt.verify] has no say; so is an absent header. *)
Theorem verifyToken_missing_token {ID} (verify : jsstring -> option ID) :
  verifyToken verify None = Denied 401 (lit "No token, authorization denied") /\
  (forall h, 32%N ∉ h ->
     verifyToken verify (Some h)
     = Denied 401 (lit "No token, authorization denied")) /\
  (forall scheme rest, 32%N ∉ scheme ->
     verifyToken verify (Some (scheme ++ 32%N :: 32%N :: rest))
     = Denied 401 (lit "No token, authorization denied")).
Proof.
  split; [done|]. split.
  - intros h Hh. unfold verifyToken, header_token.
    destruct h as [|a h]; [done|]. by rewrite split_on_no_sep.
  - intros scheme rest Hs. unfold verifyToken, header_token.
    destruct (scheme ++ 32%N :: 32%N :: rest) as [|a hs] eqn:Eh.
    { by destruct scheme. }
    rewrite <- Eh, (split_on_first 32 [] scheme) by done.
    change (32%N :: rest) with ([] ++ 32%N :: rest).
    by rewrite (split_on_first 32 [] [] rest) by apply not_elem_of_nil.
Qed.

Lemma verifyToken_missing_token_witness :
  (32%N ∉ lit "Bearer") /\
  verifyToken (fun _ => Some 7) (Some (lit "Bearer"))
  = Denied 401 (lit "No token, authorization denied").
Proof.
  assert (H : 32%N ∉ lit "Bearer")
    by (rewrite list_elem_of_In; vm_compute; intuition discriminate).
  split; [exact H|].
  exact (proj1 (proj2 (verifyToken_missing_token (fun _ => Some 7))) _ H).
Defined.


Section FallbackLoop.

Variable str_number : jsstring -> number.

Implicit Types (rec : Recommendations) (t : TestInput) (ts : list TestInput).

Lemma advice_of_endo p :
  advice_of (mkReferral p (lit "Endocrinologist") (lit "moderate"))
  = template p ++ glucose_advice.
Proof. unfold advice_of. cbn [specialist r_test]. by rewrite decide_True. Qed.

Lemma advice_of_nephro p :
  advice_of (mkReferral p (lit "Nephrologist") (lit "moderate"))
  = template p ++ creatinine_advice.
Proof.
  unfold advice_of. cbn [specialist r_test].
  by rewrite decide_False by (by vm_compute).
Qed.

Lemma fallback_step_spec rec t :
  fallback_step str_number rec t =
    mkRecs (overall_risk rec)
           (suggestions rec ++ (advice_of <$> round_referrals str_number t))
           (specialist_referrals rec ++ round_referrals str_number t).
Proof.
  unfold fallback_step, round_referrals, push_advice. destruct rec as [risk ss rs].
  destruct (flag_glucose str_number t), (flag_creatinine str_number t);
    cbn [overall_risk suggestions specialist_referrals app fmap list_fmap];
    rewrite ?advice_of_endo, ?advice_of_nephro, ?app_nil_r, <- ?app_assoc; done.
Qed.

Lemma fallback_loop_spec rec ts :
  foldl (fallback_step str_number) rec ts =
    mkRecs (overall_risk rec)
           (suggestions rec
              ++ (advice_of <$> (ts ≫= round_referrals str_number)))
           (specialist_referrals rec ++ (ts ≫= round_referrals str_number)).
Proof.
  revert rec. induction ts as [|t ts IH]; intros rec.
  - simpl. rewrite !app_nil_r. by destruct rec.
  - cbn [foldl]. rewrite IH, fallback_step_spec, bind_cons.
    cbn [overall_risk suggestions specialist_referrals].
    by rewrite fmap_app, <- !app_assoc.
Qed.

Lemma fallback_referrals summary ts :
  specialist_referrals (fallback_recommendations str_number summary ts)
  = ts ≫= round_referrals str_number /\
  suggestions (fallback_recommendations str_number summary ts)
  = advice_of <$> (ts ≫= round_referrals str_number).
Proof. unfold fallback_recommendations. by rewrite fallback_loop_spec. Qed.

Lemma round_referrals_length t : length (round_referrals str_number t) <= 2.
Proof.
  unfold round_referrals.
  destruct (flag_glucose _ _), (flag_creatinine _ _); simpl; lia.
Qed.

Lemma round_referrals_falsy t :
  truthy (t_value t) = false -> round_referrals str_number t = [].
Proof.
  intros H. unfold round_referrals, flag_glucose, flag_creatinine.
  by rewrite H, !andb_false_r.
Qed.

End FallbackLoop.

(** X19. The suggestions and the referrals of the fallback stay in step:
    the suggestion at each place is the advice for the referral at that
    place, every referral has urgency "moderate", and a test adds at most
    two of them. *)
Theorem fallback_lists_aligned (str_number : jsstring -> number)
    (summary : jsprop) (ts : list TestInput) :
  suggestions (fallback_recommendations str_number summary ts)
  = advice_of <$> specialist_referrals
                    (fallback_recommendations str_number summary ts) /\
  Forall (fun r => urgency r = lit "moderate")
         (specialist_referrals (fallback_recommendations str_number summary ts)) /\
  length (specialist_referrals (fallback_recommendations str_number summary ts))
  <= 2 * length ts.
Proof.
  destruct (fallback_referrals str_number summary ts) as [-> ->].
  split; [done|]. split.
  - apply Forall_forall. intros r (t & Hr & _)%list_elem_of_bind.
    revert r Hr. apply Forall_forall. unfold round_referrals.
    destruct (flag_glucose _ _), (flag_creatinine _ _); by repeat constructor.
  - induction ts as [|t ts IH]; [done|].
    rewrite bind_cons, length_app. cbn [length].
    pose proof (round_referrals_length str_number t). lia.
Qed.

(** X20. A test whose value is null, absent, zero, NaN or the empty string
    is never the subject of a fallback suggestion or referral, whatever its
    name: the comparisons are guarded by the value itself. *)
Theorem fallback_skips_missing_values (str_number : jsstring -> number)
    (summary : jsprop) (ts : list TestInput) :
  (forall t, t ∈ ts -> truthy (t_value t) = false) ->
  suggestions (fallback_recommendations str_number summary ts) = [] /\
  specialist_referrals (fallback_recommendations str_number summary ts) = [].
Proof.
  intros Hall. destruct (fallback_referrals str_number summary ts) as [-> ->].
  assert (ts ≫= round_referrals str_number = []) as ->; [|done].
  induction ts as [|t ts IH]; [done|].
  rewrite bind_cons, IH, round_referrals_falsy; [done| |].
  - apply Hall. by left.
  - intros t' Ht'. apply Hall. by right.
Qed.

Lemma fallback_skips_missing_values_witness :
  (forall t, t ∈ [glucose_null] -> truthy (t_value t) = false) /\
  specialist_referrals (fallback_recommendations parseFloat PUndefined [glucose_null])
  = [].
Proof.
  assert (H : forall t, t ∈ [glucose_null] -> truthy (t_value t) = false)
    by (by intros t ->%list_elem_of_singleton).
  split; [exact H|].
  exact (proj2 (fallback_skips_missing_values parseFloat PUndefined _ H)).
Defined.

(** X21. Every fallback referral is backed by a test of the input: the
    referral names that test, the value of the test is truthy, and either
    the referral is to an endocrinologist, the name holds "glucose" and the
    value is above 99, or it is to a nephrologist, the name holds
    "creatinine" and the value is above 1.4. *)
Theorem fallback_referral_backed (str_number : jsstring -> number)
    (summary : jsprop) (ts : list TestInput) (r : Referral) :
  r ∈ specialist_referrals (fallback_recommendations str_number summary ts) ->
  exists t,
    t ∈ ts /\ r_test r = t_name t /\ truthy (t_value t) = true /\
    ((specialist r = lit "Endocrinologist" /\
      includes (lower_name t) (lit "glucose") = true /\
      SFltb (js_number "99") (to_number str_number (t_value t)) = true) \/
     (specialist r = lit "Nephrologist" /\
      includes (lower_name t) (lit "creatinine") = true /\
      SFltb (js_number "1.4") (to_number str_number (t_value t)) = true)).
Proof.
  destruct (fallback_referrals str_number summary ts) as [-> _].
  intros (t & Hr & Ht)%list_elem_of_bind. exists t. split; [done|].
  unfold round_referrals in Hr. apply elem_of_app in Hr as [Hr|Hr].
  - destruct (flag_glucose str_number t) eqn:Hf; [|by apply elem_of_nil in Hr].
    apply list_elem_of_singleton in Hr as ->.
    unfold flag_glucose in Hf. apply andb_prop in Hf as [[H1 H2]%andb_prop H3].
    split; [done|]. split; [done|]. by left.
  - destruct (flag_creatinine str_number t) eqn:Hf; [|by apply elem_of_nil in Hr].
    apply list_elem_of_singleton in Hr as ->.
    unfold flag_creatinine in Hf. apply andb_prop in Hf as [[H1 H2]%andb_prop H3].
    split; [done|]. split; [done|]. by right.
Qed.

Lemma fallback_referral_backed_witness :
  mkReferral (PStr (lit "Fasting Glucose")) (lit "Endocrinologist")
             (lit "moderate")
    ∈ specialist_referrals
        (fallback_recommendations parseFloat PUndefined [glucose_test]) /\
  exists t, t ∈ [glucose_test] /\ truthy (t_value t) = true.
Proof.
  assert (H : mkReferral (PStr (lit "Fasting Glucose")) (lit "Endocrinologist")
                         (lit "moderate")
                ∈ specialist_referrals
                    (fallback_recommendations parseFloat PUndefined [glucose_test]))
    by (apply list_elem_of_In; vm_compute; auto).
  split; [exact H|].
  destruct (fallback_referral_backed parseFloat PUndefined _ _ H)
    as (t & Ht & _ & Hv & _).
  by exists t.
Defined.

Section FirstLine.

Lemma bind_lookup_split {A B} (f : A -> list B) (ls : list A) i r :
  (ls ≫= f) !! i = Some r ->
  exists L1 l L2,
    ls = L1 ++ l :: L2 /\ r ∈ f l /\
    forall r', r' ∈ L1 ≫= f -> exists j, j < i /\ (ls ≫= f) !! j = Some r'.
Proof.
  revert i. induction ls as [|l0 ls IH]; intros i; [done|].
  rewrite bind_cons. destruct (decide (i < length (f l0))) as [Hlt|Hge].
  - rewrite lookup_app_l by done. intros Hi.
    exists [], l0, ls. split; [done|]. split.
    + by apply list_elem_of_lookup_2 in Hi.
    + by intros r' ?%elem_of_nil.
  - rewrite lookup_app_r by lia. intros Hi.
    destruct (IH _ Hi) as (L1 & l & L2 & -> & Hr & Hearly).
    exists (l0 :: L1), l, L2. split; [done|]. split; [done|].
    intros r'. rewrite bind_cons, elem_of_app. intros [Hin|Hin].
    + apply list_elem_of_lookup in Hin as [j Hj]. exists j.
      pose proof (lookup_lt_Some _ _ _ Hj). split; [lia|].
      by rewrite lookup_app_l.
    + destruct (Hearly r' Hin) as (j & Hj & Hr').
      exists (length (f l0) + j). split; [lia|].
      rewrite lookup_app_r by lia. by rewrite Nat.add_comm, Nat.add_sub.
Qed.

Lemma line_records (l : jsstring) r :
  r ∈ loop_tests [] tests l <->
  exists t, t ∈ tests /\ entry_matches t l = true /\ r = extract t l.
Proof.
  rewrite loop_tests_spec, app_nil_l, list_elem_of_fmap. split.
  - intros (t & -> & [Hm Ht]%list_elem_of_filter). by exists t.
  - intros (t & Ht & Hm & ->). exists t. split; [done|].
    by apply list_elem_of_filter.
Qed.

End FirstLine.

(** X22. The record of a key is made of the first scanned line that
    contains the key, letter case aside: no earlier line contains it. *)
Theorem first_line_with_key_wins (text : option jsstring) (r : LabRecord) :
  r ∈ parseExtractedValues text ->
  exists L1 L2,
    scanned_lines text = L1 ++ line r :: L2 /\
    contains_ci (test r) (line r) /\
    forall l', l' ∈ L1 -> ~ contains_ci (test r) l'.
Proof.
  rewrite parse_unfold, dedup_loop_first.
  intros (i & [Hi Hfirst] & _). unfold found_of in *.
  rewrite loop_lines_spec, app_nil_l in Hi, Hfirst.
  destruct (bind_lookup_split _ _ _ _ Hi) as (L1 & l & L2 & Hl & Hr & Hearly).
  apply line_records in Hr as (t & Ht & Hm & ->).
  exists L1, L2. cbn [line test extract]. split; [done|]. split.
  - by apply entry_matches_key.
  - intros l' Hl' Hc.
    destruct (Hearly (extract t l')) as (j & Hj & Hr').
    + apply list_elem_of_bind. exists l'. split; [|done].
      apply line_records. exists t. split; [done|]. split; [|done].
      by apply entry_matches_key.
    + by apply (Hfirst j _ Hj Hr').
Qed.

Lemma first_line_with_key_wins_witness :
  hb_record ∈ parseExtractedValues (Some hb_line) /\
  exists L1 L2, scanned_lines (Some hb_line) = L1 ++ line hb_record :: L2.
Proof.
  assert (H : hb_record ∈ parseExtractedValues (Some hb_line))
    by (apply list_elem_of_In; vm_compute; auto).
  split; [exact H|].
  destruct (first_line_with_key_wins (Some hb_line) hb_record H)
    as (L1 & L2 & HL & _).
  by exists L1, L2.
Defined.

Section ParserThenOverride.

Lemma store_of_lookup_from (os : list LabRecord) (s q : nat) :
  (list_to_map (zip (seq s (length os)) os) : store) !! q =
    if decide (s <= q) then os !! (q - s) else None.
Proof.
  revert s. induction os as [|o os IH]; intros s; simpl.
  - rewrite lookup_empty. by destruct (decide _).
  - destruct (decide (s = q)) as [->|Hne].
    + rewrite lookup_insert_eq, decide_True, Nat.sub_diag by lia. done.
    + rewrite lookup_insert_ne, IH by done.
      destruct (decide (S s <= q)), (decide (s <= q)); try lia; [|done].
      by replace (q - s) with (S (q - S s)) by lia.
Qed.

Lemma store_of_lookup (os : list LabRecord) (q : nat) :
  store_of os !! q = os !! q.
Proof.
  unfold store_of. rewrite store_of_lookup_from, decide_True by lia.
  by rewrite Nat.sub_0_r.
Qed.

(** Of the keys of the registry only Hemoglobin matches [/hemoglobin/i]. *)
Lemma hemoglobin_key t :
  t ∈ tests -> is_hemoglobin (key t) = true -> key t = lit "Hemoglobin".
Proof.
  unfold tests. rewrite !elem_of_cons, elem_of_nil. intros H.
  repeat (destruct H as [->|H]; [by vm_compute|]). done.
Qed.

End ParserThenOverride.

(** X23. Run on the records of the parser, the step edits at most one of
    them, and that one has the key Hemoglobin. *)
Theorem override_edits_one_parsed_record (text : option jsstring) items
    (q q' : nat) :
  (applyHemoglobinRule (store_of (parseExtractedValues text))
                       (all_refs (parseExtractedValues text)) items).1 !! q
    <> store_of (parseExtractedValues text) !! q ->
  (applyHemoglobinRule (store_of (parseExtractedValues text))
                       (all_refs (parseExtractedValues text)) items).1 !! q'
    <> store_of (parseExtractedValues text) !! q' ->
  q = q' /\
  exists r, parseExtractedValues text !! q = Some r /\
            test r = lit "Hemoglobin".
Proof.
  assert (Hchanged : forall p : nat,
    (applyHemoglobinRule (store_of (parseExtractedValues text))
                         (all_refs (parseExtractedValues text)) items).1 !! p
      <> store_of (parseExtractedValues text) !! p ->
    exists r, parseExtractedValues text !! p = Some r /\
              test r = lit "Hemoglobin").
  { intros p. unfold applyHemoglobinRule.
    rewrite array_map_lookup, !store_of_lookup.
    destruct (parseExtractedValues text !! p) as [o|] eqn:Hp; [|done].
    destruct (is_hemoglobin (test o)) eqn:Hh; [|by rewrite andb_false_r].
    intros _. exists o. split; [done|].
    apply list_elem_of_lookup_2, output_in_found, found_elem in Hp
      as (t & l & Ht & _ & _ & ->).
    by apply hemoglobin_key. }
  intros (r & Hq & Hr)%Hchanged (r' & Hq' & Hr')%Hchanged.
  split; [|by exists r].
  assert (NoDup (test <$> parseExtractedValues text)) as Hnd
    by (rewrite parse_unfold; apply dedup_loop_NoDup).
  apply (NoDup_lookup _ q q' (lit "Hemoglobin") Hnd);
    rewrite list_lookup_fmap; [by rewrite Hq, <- Hr | by rewrite Hq', <- Hr'].
Qed.

Lemma override_edits_one_parsed_record_witness :
  (applyHemoglobinRule (store_of (parseExtractedValues (Some hb_line)))
                       (all_refs (parseExtractedValues (Some hb_line))) []).1 !! 0
    <> store_of (parseExtractedValues (Some hb_line)) !! 0 /\
  exists r, parseExtractedValues (Some hb_line) !! 0 = Some r /\
            test r = lit "Hemoglobin".
Proof.
  assert (H : (applyHemoglobinRule (store_of (parseExtractedValues (Some hb_line)))
                 (all_refs (parseExtractedValues (Some hb_line))) []).1 !! 0
              <> store_of (parseExtractedValues (Some hb_line)) !! 0)
    by (by vm_compute).
  split; [exact H|].
  exact (proj2 (override_edits_one_parsed_record (Some hb_line) [] 0 0 H H)).
Defined.

Section JsonBlockProofs.

Implicit Types (s pre mid post rest : jsstring).

Lemma star_run_any_app u v :
  exists X, star_run any_unit (u ++ v) = star_run any_unit v ++ X.
Proof.
  induction u as [|c u [X IH]]; [exists []; by rewrite app_nil_r|].
  cbn [app star_run any_unit]. rewrite IH.
  exists (X ++ [c :: u ++ v]). by rewrite app_assoc.
Qed.

Lemma head_bind_skip {A B} (f : A -> list B) (l1 l2 : list A) :
  (forall x, x ∈ l1 -> f x = []) -> head ((l1 ++ l2) ≫= f) = head (l2 ≫= f).
Proof.
  intros H. rewrite bind_app.
  assert (l1 ≫= f = []) as ->; [|done].
  induction l1 as [|x l1 IH]; [done|].
  rewrite bind_cons, H, IH; [done| |by left]. intros y Hy. apply H. by right.
Qed.

Lemma run_class p c s :
  run (RClass p) (c :: s) = if p c then [([], s)] else [].
Proof. reflexivity. Qed.

Lemma bind_of_fmap {A B C} (g : A -> B) (f : B -> list C) (l : list A) :
  (g <$> l) ≫= f = l ≫= (fun x => f (g x)).
Proof.
  induction l as [|x l IH]; [done|]. by rewrite fmap_cons, !bind_cons, IH.
Qed.

Lemma head_run_to_last_rbrace mid post :
  125%N ∉ post ->
  head (run (RSeq (RStar any_unit) (RClass is_rbrace)) (mid ++ 125%N :: post))
  = Some ([], post).
Proof.
  intros Hpost. rewrite run_seq, run_star, bind_of_fmap.
  destruct (star_run_any_app mid (125%N :: post)) as [X ->].
  cbn [star_run any_unit]. rewrite <- !app_assoc, head_bind_skip.
  - rewrite <- app_comm_cons, bind_cons, run_class.
    by change (is_rbrace 125) with true.
  - intros rest (u & Hu & _)%star_run_elem.
    destruct rest as [|c rest']; [done|]. rewrite run_class. unfold is_rbrace.
    destruct (N.eqb_spec c 125) as [->|]; [|done].
    exfalso. apply Hpost. rewrite Hu. apply elem_of_app. right. by left.
Qed.

Lemma run_block_here mid post :
  125%N ∉ post ->
  head (run jsonBlockRe (123%N :: mid ++ 125%N :: post)) = Some ([], post).
Proof.
  intros Hpost. unfold jsonBlockRe. rewrite run_seq, run_class.
  change (is_lbrace 123) with true. cbn match.
  rewrite bind_cons, app_nil_r.
  rewrite (head_bind_ret _ (fun '(c2, s2) => ([] ++ c2, s2))) by (by intros []).
  by rewrite head_run_to_last_rbrace.
Qed.

Lemma exec_skip_prefix r pre s :
  (forall c rest, c ∈ pre -> run r (c :: rest) = []) ->
  m_text <$> exec r (pre ++ s) = m_text <$> exec r s.
Proof.
  intros Hrun. induction pre as [|c pre IH]; [done|].
  cbn [app exec]. unfold exec_here at 1.
  rewrite Hrun by (by left). cbn.
  rewrite <- IH by (intros c' rest Hc'; apply Hrun; by right).
  by destruct (exec r (pre ++ s)).
Qed.

Lemma run_block_needs_lbrace c rest :
  c <> 123%N -> run jsonBlockRe (c :: rest) = [].
Proof.
  intros Hc. unfold jsonBlockRe. rewrite run_seq, run_class. unfold is_lbrace.
  by destruct (N.eqb_spec c 123).
Qed.

End JsonBlockProofs.

(** X24. The block taken out of the output of the script runs from the
    first opening brace to the last closing brace; an output without an
    opening brace has no block. *)
Theorem json_block_is_widest (pre mid post : jsstring) :
  (123%N ∉ pre) -> (125%N ∉ post) ->
  json_block (pre ++ 123%N :: mid ++ 125%N :: post)
    = Some (123%N :: mid ++ [125%N]) /\
  json_block pre = None.
Proof.
  intros Hpre Hpost.
  assert (Hskip : forall c rest, c ∈ pre -> run jsonBlockRe (c :: rest) = []).
  { intros c rest Hc. apply run_block_needs_lbrace. by intros ->. }
  unfold json_block. split.
  - rewrite exec_skip_prefix by done.
    cbn [exec]. unfold exec_here. rewrite run_block_here by done. cbn.
    f_equal. rewrite length_app. cbn [length].
    replace (S (length mid + S (length post)) - length post)
      with (length (123%N :: mid ++ [125%N]))
      by (rewrite length_cons, length_app; simpl; lia).
    change (123%N :: mid ++ 125%N :: post)
      with ((123%N :: mid) ++ [125%N] ++ post).
    rewrite app_assoc, app_comm_cons. apply take_app_length.
  - rewrite <- (app_nil_r pre), exec_skip_prefix by done. done.
Qed.

Lemma json_block_is_widest_witness :
  ((123%N ∉ lit "log: ") /\ (125%N ∉ lit " done")) /\
  json_block (lit "log: {a:{}} done") = Some (lit "{a:{}}").
Proof.
  assert (H1 : 123%N ∉ lit "log: ")
    by (rewrite list_elem_of_In; vm_compute; intuition discriminate).
  assert (H2 : 125%N ∉ lit " done")
    by (rewrite list_elem_of_In; vm_compute; intuition discriminate).
  split; [by split|].
  exact (proj1 (json_block_is_widest (lit "log: ") (lit "a:{}") (lit " done")
                  H1 H2)).
Defined.
